(** * Fitly: session / token continuity subsystem

    A shallow embedding of [src/background/auth_state_manager.js], of
    [src/background/session_ready_gate.js] and of the start-up sequence of
    [src/service_worker.js].

    The asynchronous functions of the token manager are embedded as finite
    interaction trees ([Prog]) over the calls they make to their
    collaborators (the Supabase identity client, [chrome.storage.local],
    [fetch], [Date.now]) and over the module variable [_refreshPromise].
    Two semantics are given to these trees:

    - [exec] runs one call chain against an arbitrary world that answers
      every call; it is used for the properties of a single call;
    - [Machine] interleaves any number of [refreshAuthToken()] calls with
      the [_doRefresh()] executions they start; it is used for the
      refresh mutex.

    Console output is not modelled; the reads of the clock made to
    compute a logged value are.  Timestamps are integers ([Z]);
    [Math.floor(x / 1000)] is floor division. *)

From Stdlib Require Import ZArith String List Lia Bool.
From stdpp Require Import base option list gmap strings.

Local Open Scope string_scope.
Local Open Scope Z_scope.
Local Open Scope list_scope.

Set Implicit Arguments.

(** ** JavaScript values *)

(** An [Error] object: [message] and the optional [errorCode] property. *)
Record JsError := mkError { message : string; errorCode : option string }.

(** [new Error(msg)] *)
Definition new_Error (msg : string) : JsError :=
  {| message := msg; errorCode := None |}.

(** The outcome of a call: it returns (a promise fulfils) or it throws
    (a promise rejects). *)
Inductive Outcome (A : Type) : Type :=
| Returned (a : A)
| Threw (err : JsError).
Arguments Returned {A} a.
Arguments Threw {A} err.

(** The session object of the identity client.  A missing property is
    [None]. *)
Record Session := mkSession {
  access_token : option string;
  refresh_token : option string;
  expires_at : option Z          (* seconds since the epoch *)
}.

(** [{ data: { session }, error }], as returned by [getSession] and
    [refreshSession]. *)
Record SessionResult := mkSessionResult {
  data_session : option Session;
  error : option JsError
}.

(** The object kept under the durable key (or obtained from it by
    [JSON.parse]): only the two properties the code reads. *)
Record StoredSession := mkStored {
  stored_access_token : option string;
  stored_refresh_token : option string
}.

(** [stored['fitly-auth-token']].  A string value comes with what
    [JSON.parse] makes of it: a parsed value ([None] for a value without
    properties, such as [null]) or a [SyntaxError]. *)
Inductive RawItem : Type :=
| RawMissing
| RawString (s : string) (parse : Outcome (option StoredSession))
| RawObject (o : StoredSession).

(** Request options: the headers object and the remaining properties,
    which the wrapper copies unchanged. *)
Record RequestInit := mkInit {
  headers : gmap string string;
  other_options : list (string * string)
}.

Record Response := mkResponse { status : Z; body : string }.

(** JavaScript truthiness of a string-or-missing value. *)
Definition truthy (v : option string) : bool :=
  match v with
  | Some s => negb (String.eqb s "")
  | None => false
  end.

(** [session?.access_token] *)
Definition opt_access_token (s : option Session) : option string :=
  match s with
  | Some s => access_token s
  | None => None
  end.

(** [session.expires_at], read after [session?.access_token] was found *)
Definition opt_expires_at (s : option Session) : option Z :=
  match s with
  | Some s => expires_at s
  | None => None
  end.

(** [x ? x * 1000 : 0] for [x = session.expires_at] *)
Definition expiresAtMs (e : option Z) : Z :=
  match e with
  | Some x => if Z.eqb x 0 then 0 else x * 1000
  | None => 0
  end.

(** [Math.floor((expiresAtMs - Date.now()) / 1000)] *)
Definition ttl_at (e : option Z) (now : Z) : Z := (expiresAtMs e - now) / 1000.

Definition CLOCK_SKEW_TOLERANCE_S : Z := 60.

(** ** Calls and programs *)

Abbreviation PromiseId := nat (only parsing).

(** The calls a function of the module can make, indexed by the type of
    what comes back. *)
Inductive Ev : Type -> Type :=
(* supabase.auth *)
| GetSession : Ev (Outcome SessionResult)
| RefreshSession (currentSession : option string) : Ev (Outcome SessionResult)
| SetSession (access refresh : option string) : Ev (Outcome (option JsError))
(* chrome.storage.local.get(key)[key] *)
| StorageGet (key : string) : Ev (Outcome RawItem)
(* fetch(url, init) *)
| Fetch (url : string) (init : RequestInit) : Ev (Outcome Response)
(* Date.now() *)
| DateNow : Ev Z
(* the module variable _refreshPromise *)
| ReadRefreshPromise : Ev (option PromiseId)
| WriteRefreshPromise (p : option PromiseId) : Ev unit
(* _doRefresh(): starts an execution and yields its promise *)
| CallDoRefresh : Ev PromiseId
(* await p, for the promise of a _doRefresh() execution *)
| Await (p : PromiseId) : Ev (Outcome (option string)).

Inductive Prog (R : Type) : Type :=
| Ret (r : R)
| Vis (X : Type) (e : Ev X) (k : X -> Prog R).
Arguments Ret {R} r.
Arguments Vis {R X} e k.

Fixpoint prog_bind {A B} (c : Prog A) (f : A -> Prog B) : Prog B :=
  match c with
  | Ret a => f a
  | Vis e k => Vis e (fun x => prog_bind (k x) f)
  end.

(** Code that may throw. *)
Abbreviation M A := (Prog (Outcome A)) (only parsing).

Definition ret {A} (a : A) : M A := Ret (Returned a).
Definition throw {A} (err : JsError) : M A := Ret (Threw err).

Definition bind {A B} (c : M A) (f : A -> M B) : M B :=
  prog_bind c (fun o => match o with
                        | Returned a => f a
                        | Threw err => Ret (Threw err)
                        end).

(** [await e] for a call that settles with an outcome, and [perform e]
    for a synchronous operation. *)
Definition await {A} (e : Ev (Outcome A)) : M A := Vis e Ret.
Definition perform {A} (e : Ev A) : M A := Vis e (fun x => Ret (Returned x)).

(** [try { c } catch (err) { handler err }] *)
Definition try_catch {A} (c : M A) (handler : JsError -> M A) : M A :=
  prog_bind c (fun o => match o with
                        | Returned a => Ret (Returned a)
                        | Threw err => handler err
                        end).

(** [try { c } finally { f }], for an [f] that does not throw. *)
Definition try_finally {A} (c : M A) (f : M unit) : M A :=
  prog_bind c (fun o => prog_bind f (fun _ => Ret o)).

Declare Scope js_scope.
Delimit Scope js_scope with js.
Notation "'let*' x ':=' c 'in' k" := (bind c (fun x => k))
  (at level 10, x name, c at level 100, k at level 200) : js_scope.
Local Open Scope js_scope.

(** ** The token manager: [auth_state_manager.js] *)

(** [!x] for a value that is an object or missing *)
Definition absent {A} (x : option A) : bool :=
  match x with
  | Some _ => false
  | None => true
  end.

(** [!error && data.session?.access_token] *)
Definition has_token (r : SessionResult) : bool :=
  absent (error r) && truthy (opt_access_token (data_session r)).

(** [!raw] *)
Definition raw_falsy (raw : RawItem) : bool :=
  match raw with
  | RawMissing => true
  | RawString s _ => String.eqb s ""
  | RawObject _ => false
  end.

(** [typeof raw === 'string' ? JSON.parse(raw) : raw] *)
Definition parse_raw (raw : RawItem) : Outcome (option StoredSession) :=
  match raw with
  | RawString _ parse => parse
  | RawObject o => Returned (Some o)
  | RawMissing => Returned None
  end.

(** [parsed?.refresh_token] and [parsed.access_token] *)
Definition opt_refresh_token (parsed : option StoredSession) : option string :=
  match parsed with
  | Some o => stored_refresh_token o
  | None => None
  end.

Definition opt_stored_access (parsed : option StoredSession) : option string :=
  match parsed with
  | Some o => stored_access_token o
  | None => None
  end.

(** [x ? Math.floor((x * 1000 - Date.now()) / 1000) : 'N/A'] for
    [x = session.expires_at]: the TTL written to the log, [None] for
    ['N/A'].  The clock is read when [x] is truthy. *)
Definition ttl_for_log (e : option Z) : M (option Z) :=
  match e with
  | Some x =>
    if Z.eqb x 0 then ret None
    else let* now := perform DateNow in ret (Some ((x * 1000 - now) / 1000))
  | None => ret None
  end.

(** [_doRefresh()]: the primary refresh, then the storage rescue.  Each
    [try] block yields [Some v] when the function returns [v] from inside
    it and [None] when control leaves the block. *)
Definition _doRefresh : M (option string) :=
  (* ATTEMPT 1: Normal Supabase refresh *)
  let* attempt1 :=
    try_catch
      (let* r := await (RefreshSession None) in
       if has_token r
       then
         let* ttl := ttl_for_log (opt_expires_at (data_session r)) in
         ret (Some (opt_access_token (data_session r)))
       else ret None)
      (fun primaryErr => ret None) in
  match attempt1 with
  | Some v => ret v
  | None =>
    (* ATTEMPT 2: Storage rescue *)
    let* attempt2 :=
      try_catch
        (let* raw := await (StorageGet "fitly-auth-token") in
         if raw_falsy raw then ret (Some None)
         else
           let* parsed := Ret (parse_raw raw) in
           if negb (truthy (opt_refresh_token parsed)) then ret (Some None)
           else
             let* setErr := await (SetSession (opt_stored_access parsed)
                                              (opt_refresh_token parsed)) in
             if negb (absent setErr) then ret (Some None)
             else
               (* Retry refresh with restored session *)
               let* retry := await (RefreshSession None) in
               if has_token retry
               then
                 let* ttl := ttl_for_log (opt_expires_at (data_session retry)) in
                 ret (Some (opt_access_token (data_session retry)))
               else ret None)
        (fun rescueErr => ret None) in
    match attempt2 with
    | Some v => ret v
    | None => ret None
    end
  end.

(** [refreshAuthToken(_refreshToken)]: the refresh mutex. *)
Definition refreshAuthToken (_refreshToken : option string) : M (option string) :=
  let* inflight := perform ReadRefreshPromise in
  match inflight with
  | Some p =>
    (* STEP 1: If a refresh is already in-flight, wait for it *)
    try_catch (await (Await p)) (fun _ => ret None)
  | None =>
    (* STEP 2: Acquire mutex *)
    let* p := perform CallDoRefresh in
    let* _ := perform (WriteRefreshPromise (Some p)) in
    try_finally (await (Await p)) (perform (WriteRefreshPromise None))
  end.

(** [getAuthToken()] *)
Definition getAuthToken : M (option string) :=
  try_catch
    (let* r := await GetSession in
     if negb (absent (error r)) then ret None
     else if negb (truthy (opt_access_token (data_session r))) then ret None
     else
       let* now := perform DateNow in
       let ttl := ttl_at (opt_expires_at (data_session r)) now in
       if ttl <=? CLOCK_SKEW_TOLERANCE_S then
         let* freshToken := refreshAuthToken None in
         if truthy freshToken then ret freshToken
         else if 0 <? ttl then ret (opt_access_token (data_session r))
         else ret None
       else ret (opt_access_token (data_session r)))
    (fun err => ret None).

(** The three parts of [forceRefreshToken(bypassTTL)].  The first is the
    [if (!bypassTTL)] block: [Some token] when it returns the current
    token, [None] when control goes on to the refresh. *)
Definition ttl_check (bypassTTL : bool) : M (option (option string)) :=
  if negb bypassTTL then
    try_catch
      (let* r := await GetSession in
       if truthy (opt_access_token (data_session r)) then
         let* now := perform DateNow in
         let ttl := ttl_at (opt_expires_at (data_session r)) now in
         (* TTL >= 15 min: no need to refresh *)
         if 900 <=? ttl then ret (Some (opt_access_token (data_session r)))
         else ret None
       else ret None)
      (fun e => ret None)
  else ret None.

Definition REFRESH_FAILED_error : JsError :=
  {| message := "Token refresh failed: all refresh attempts failed";
     errorCode := Some "REFRESH_FAILED" |}.

(** After a failed refresh: the fallback to the current token, else the
    error. *)
Definition fallback_or_fail : M (option string) :=
  let* fallback :=
    try_catch
      (let* r := await GetSession in
       if truthy (opt_access_token (data_session r)) then
         let* fallbackTTL :=
           match opt_expires_at (data_session r) with
           | Some x =>
             if Z.eqb x 0 then ret 0
             else let* now := perform DateNow in ret ((x * 1000 - now) / 1000)
           | None => ret 0
           end in
         if 0 <? fallbackTTL then ret (Some (opt_access_token (data_session r)))
         else ret None
       else ret None)
      (fun _ => ret None) in
  match fallback with
  | Some token => ret token
  | None => throw REFRESH_FAILED_error
  end.

Definition forceRefreshToken (bypassTTL : bool) : M (option string) :=
  let* current := ttl_check bypassTTL in
  match current with
  | Some token => ret token
  | None =>
    (* TTL < 15 min or no session: force refresh *)
    let* freshToken := refreshAuthToken None in
    if truthy freshToken then ret freshToken
    else fallback_or_fail
  end.

(** [{ ...options, headers: { ...options.headers, Authorization, Content-Type } }] *)
Definition with_bearer (options : RequestInit) (token : string) : RequestInit :=
  {| headers := <["Content-Type" := "application/json"]>
                  (<["Authorization" := "Bearer " +:+ token]> (headers options));
     other_options := other_options options |}.

(** Request options that are [options] with the bearer [token] and the
    JSON content type in the headers, in place of whatever [options] had
    under these two names, and nothing else changed. *)
Definition carries_bearer (options : RequestInit) (token : string)
    (init : RequestInit) : Prop :=
  headers init !! "Authorization" = Some ("Bearer " +:+ token)
  /\ headers init !! "Content-Type" = Some "application/json"
  /\ (forall name, name <> "Authorization" -> name <> "Content-Type" ->
        headers init !! name = headers options !! name)
  /\ other_options init = other_options options.

Definition token_string (t : option string) : string :=
  match t with
  | Some s => s
  | None => ""
  end.

(** [makeAuthenticatedRequest(url, options)]: first what follows the
    first response, then the whole function. *)
Definition on_response (url : string) (options : RequestInit)
    (response : Response) : M Response :=
  if status response =? 401 then
    let* newToken := refreshAuthToken None in
    if truthy newToken
    then await (Fetch url (with_bearer options (token_string newToken)))
    else ret response
  else ret response.

Definition makeAuthenticatedRequest (url : string) (options : RequestInit)
  : M Response :=
  let* token := getAuthToken in
  if negb (truthy token) then throw (new_Error "Unauthorized")
  else
    let* response := await (Fetch url (with_bearer options (token_string token))) in
    on_response url options response.

(** ** One call chain in an arbitrary world *)

(** A call as it appears in a trace: the call without its answer. *)
Definition Call : Type := sigT Ev.
Definition call {X} (e : Ev X) : Call := existT X e.

Definition is_refreshSession (c : Call) : bool :=
  match projT2 c with RefreshSession _ => true | _ => false end.
Definition is_fetch (c : Call) : bool :=
  match projT2 c with Fetch _ _ => true | _ => false end.
(** [_refreshPromise] is read at the entry of [refreshAuthToken] and
    nowhere else: the reads in a trace are the calls of [refreshAuthToken]. *)
Definition is_refreshAuthToken (c : Call) : bool :=
  match projT2 c with ReadRefreshPromise => true | _ => false end.
(** Any part of a refresh: entering the mutex, starting or awaiting
    [_doRefresh], or the identity client's refresh itself. *)
Definition is_refresh_activity (c : Call) : bool :=
  match projT2 c with
  | ReadRefreshPromise | WriteRefreshPromise _ | CallDoRefresh | Await _
  | RefreshSession _ => true
  | _ => false
  end.

Definition count (f : Call -> bool) (t : list Call) : nat :=
  length (filter (fun c => f c = true) t).

(** A program that makes no call selected by [f], whatever is answered. *)
Fixpoint never {R} (f : Call -> bool) (c : Prog R) : Prop :=
  match c with
  | Ret _ => True
  | Vis e k => f (call e) = false /\ forall x, never f (k x)
  end.

Section Exec.
(** The world: a state and the answer it gives to each call. *)
Context {W : Type} (h : forall X, Ev X -> W -> X * W).

Fixpoint exec {R} (c : Prog R) (w : W) : R * W * list Call :=
  match c with
  | Ret r => (r, w, [])
  | Vis e k =>
    let '(x, w1) := h e w in
    let '(r, w2, t) := exec (k x) w1 in
    (r, w2, call e :: t)
  end.

Definition result {R} (c : Prog R) (w : W) : R := fst (fst (exec c w)).
Definition final {R} (c : Prog R) (w : W) : W := snd (fst (exec c w)).
Definition trace {R} (c : Prog R) (w : W) : list Call := snd (exec c w).
End Exec.

(** A refresh outcome seen as the code sees it: the new access token when
    the refresh succeeded. *)
Definition new_token (o : Outcome SessionResult) : option string :=
  match o with
  | Returned r => if has_token r then opt_access_token (data_session r) else None
  | Threw _ => None
  end.

(** After a refresh with outcome [o] the code reads the clock, to log the
    new TTL, when the refresh succeeded and its session has a truthy
    [expires_at]. *)
Definition logs_ttl (o : Outcome SessionResult) : bool :=
  match o with
  | Returned r =>
    has_token r
    && match opt_expires_at (data_session r) with
       | Some x => negb (Z.eqb x 0)
       | None => false
       end
  | Threw _ => false
  end.

Definition log_calls (o : Outcome SessionResult) : list Call :=
  if logs_ttl o then [call DateNow] else [].

Definition world_after_log {W : Type} (h : forall X, Ev X -> W -> X * W)
    (o : Outcome SessionResult) (w : W) : W :=
  if logs_ttl o then snd (h _ DateNow w) else w.

(** An answer of the durable store seen as the code sees it: the stored
    session when there is one with a refresh token. *)
Definition rescuable (o : Outcome RawItem) : option StoredSession :=
  match o with
  | Returned raw =>
    if raw_falsy raw then None
    else match parse_raw raw with
         | Returned (Some parsed) =>
           if truthy (stored_refresh_token parsed) then Some parsed else None
         | _ => None
         end
  | Threw _ => None
  end.

(** [s.includes(sub)] *)
Definition includes (s sub : string) : bool :=
  match String.index 0 sub s with
  | Some _ => true
  | None => false
  end.

(** [{ data: { session: null }, error: { message } }] *)
Definition refresh_error (msg : string) : Outcome SessionResult :=
  Returned {| data_session := None; error := Some (new_Error msg) |}.

(** [{ data: { session: { access_token, refresh_token, expires_at } }, error: null }] *)
Definition refresh_ok (token : string) (expires : Z) : Outcome SessionResult :=
  Returned {| data_session :=
                Some {| access_token := Some token;
                        refresh_token := Some "new-refresh-token";
                        expires_at := Some expires |};
              error := None |}.

(** ** A world for one call chain on its own

    The world of the unit tests ([tests/setup.js]): an identity client
    holding a session, a configured refresh result, a durable store, a
    clock and scripted [fetch] responses.  As the real identity client
    does, this one refuses to refresh when it holds no session.  Nobody
    else is running, so awaiting the promise of [_doRefresh()] runs that
    execution to its end. *)
Record Mock := mkMock {
  mock_session : option Session;
  mock_refresh_result : Outcome SessionResult;
  mock_storage : RawItem;
  mock_now : Z;
  mock_responses : list (Outcome Response);
  mock_refreshPromise : option PromiseId
}.

Definition mock_with_session (w : Mock) (s : option Session) : Mock :=
  {| mock_session := s;
     mock_refresh_result := mock_refresh_result w;
     mock_storage := mock_storage w;
     mock_now := mock_now w;
     mock_responses := mock_responses w;
     mock_refreshPromise := mock_refreshPromise w |}.

Definition mock_with_refreshPromise (w : Mock) (p : option PromiseId) : Mock :=
  {| mock_session := mock_session w;
     mock_refresh_result := mock_refresh_result w;
     mock_storage := mock_storage w;
     mock_now := mock_now w;
     mock_responses := mock_responses w;
     mock_refreshPromise := p |}.

Definition mock_with_responses (w : Mock) (l : list (Outcome Response)) : Mock :=
  {| mock_session := mock_session w;
     mock_refresh_result := mock_refresh_result w;
     mock_storage := mock_storage w;
     mock_now := mock_now w;
     mock_responses := l;
     mock_refreshPromise := mock_refreshPromise w |}.

Definition mock_answer (on_await : Mock -> Outcome (option string) * Mock)
    (X : Type) (e : Ev X) (w : Mock) : X * Mock :=
  match e in Ev X return X * Mock with
  | GetSession =>
    (Returned {| data_session := mock_session w; error := None |}, w)
  | RefreshSession _ =>
    match mock_session w with
    | None => (refresh_error "Auth session missing", w)
    | Some _ =>
      (mock_refresh_result w,
       match new_token (mock_refresh_result w) with
       | Some _ =>
         match mock_refresh_result w with
         | Returned r => mock_with_session w (data_session r)
         | Threw _ => w
         end
       | None => w
       end)
    end
  | SetSession a r =>
    (Returned None,
     mock_with_session w
       (Some {| access_token := a; refresh_token := r; expires_at := None |}))
  | StorageGet _ => (Returned (mock_storage w), w)
  | Fetch _ _ =>
    match mock_responses w with
    | r :: rest => (r, mock_with_responses w rest)
    | [] => (Threw (new_Error "Failed to fetch"), w)
    end
  | DateNow => (mock_now w, w)
  | ReadRefreshPromise => (mock_refreshPromise w, w)
  | WriteRefreshPromise p => (tt, mock_with_refreshPromise w p)
  | CallDoRefresh => (0%nat, w)
  | Await _ => on_await w
  end.

Definition mock_collaborators : forall X, Ev X -> Mock -> X * Mock :=
  mock_answer (fun w => (Returned None, w)).

Definition mock_world : forall X, Ev X -> Mock -> X * Mock :=
  mock_answer (fun w => (result mock_collaborators _doRefresh w,
                         final mock_collaborators _doRefresh w)).

(** [setMockToken(ttlSeconds)] at time [now] (milliseconds), with the
    refresh result of [setMockRefreshResult]. *)
Definition setMockToken (now ttlSeconds : Z) (refresh : Outcome SessionResult)
  : Mock :=
  {| mock_session :=
       Some {| access_token := Some "mock-jwt-token";
               refresh_token := Some "mock-refresh-token";
               expires_at := Some ((now + ttlSeconds * 1000) / 1000) |};
     mock_refresh_result := refresh;
     mock_storage := RawMissing;
     mock_now := now;
     mock_responses := [];
     mock_refreshPromise := None |}.

(** The scenarios of [tests/force_refresh_token_ttl_check.test.js], and
    three more: a session that expired 30 seconds ago, an identity client
    that lost its session while the durable store still has it, and a
    request that is answered 401 and then 200. *)
Definition test_now : Z := 1700000000000.

Definition scenario_A : Mock :=
  setMockToken test_now 1200 (refresh_ok "refreshed-supabase-token" 1700003600).
Definition scenario_B : Mock :=
  setMockToken test_now 120 (refresh_ok "new-fresh-token" 1700003600).
Definition scenario_C : Mock :=
  setMockToken test_now (-120) (refresh_error "Invalid refresh token").
Definition scenario_D : Mock :=
  setMockToken test_now 120 (refresh_error "Server error").
Definition scenario_near_expiry : Mock :=
  setMockToken test_now 30 (refresh_error "Server error").
Definition scenario_just_expired : Mock :=
  setMockToken test_now (-30) (refresh_error "Server error").

Definition scenario_rescue : Mock :=
  {| mock_session := None;
     mock_refresh_result := refresh_ok "rescued-token" 1700003600;
     mock_storage :=
       RawString "serialized session"
         (Returned (Some {| stored_access_token := Some "stored-access";
                            stored_refresh_token := Some "stored-refresh" |}));
     mock_now := test_now;
     mock_responses := [];
     mock_refreshPromise := None |}.

Definition scenario_401 (refresh : Outcome SessionResult) : Mock :=
  mock_with_responses (setMockToken test_now 1200 refresh)
    [Returned {| status := 401; body := "JWT expired" |};
     Returned {| status := 200; body := "ok" |}].

Definition no_options : RequestInit := {| headers := ∅; other_options := [] |}.

(** ** Interleaved calls: the refresh mutex

    The state of the module while any number of [refreshAuthToken()]
    calls are under way: the module variable, the [_doRefresh()]
    executions started so far (the promise of an execution is its
    position) and the [refreshAuthToken()] calls made so far.  A call or
    an execution is kept as what remains of it to run: [Vis e k] while it
    awaits [e], [Ret o] once it has finished with outcome [o]. *)
Record Machine := mkMachine {
  _refreshPromise : option PromiseId;
  executions : list (M (option string));
  callers : list (M (option string))
}.

Definition init : Machine :=
  {| _refreshPromise := None; executions := []; callers := [] |}.

(** What runs without suspending: the accesses to [_refreshPromise] and
    the call of [_doRefresh], which issues its first collaborator call and
    hands back its promise. *)
Definition sync_answer {X} (e : Ev X) (m : Machine) : option (X * Machine) :=
  match e in Ev X return option (X * Machine) with
  | ReadRefreshPromise => Some (_refreshPromise m, m)
  | WriteRefreshPromise p =>
    Some (tt, {| _refreshPromise := p;
                 executions := executions m;
                 callers := callers m |})
  | CallDoRefresh =>
    Some (length (executions m),
          {| _refreshPromise := _refreshPromise m;
             executions := executions m ++ [_doRefresh];
             callers := callers m |})
  | _ => None
  end.

(** Run up to the next suspension. *)
Fixpoint run_sync {R} (c : Prog R) (m : Machine) : Prog R * Machine :=
  match c with
  | Ret r => (Ret r, m)
  | Vis e k =>
    match sync_answer e m with
    | Some (x, m1) => run_sync (k x) m1
    | None => (Vis e k, m)
    end
  end.

(** [Date.now()] does not suspend an execution: when the call it awaits
    settles, the execution runs on through its reads of the clock, up to
    its next [await] or to its end. *)
Definition clock_answer {X} (answer : forall X, Ev X -> X) (e : Ev X)
  : option X :=
  match e in Ev X return option X with
  | DateNow => Some (answer _ DateNow)
  | _ => None
  end.

Fixpoint run_clock {R} (answer : forall X, Ev X -> X) (c : Prog R) : Prog R :=
  match c with
  | Ret r => Ret r
  | Vis e k =>
    match clock_answer answer e with
    | Some x => run_clock answer (k x)
    | None => Vis e k
    end
  end.

Definition is_collaborator {X} (e : Ev X) : bool :=
  match e with
  | GetSession | RefreshSession _ | SetSession _ _ | StorageGet _
  | Fetch _ _ | DateNow => true
  | _ => false
  end.

(** The outcome of execution [p], once it has settled. *)
Definition settled (m : Machine) (p : PromiseId) : option (Outcome (option string)) :=
  match executions m !! p with
  | Some (Ret o) => Some o
  | _ => None
  end.

Definition pending {R} (c : Prog R) : bool :=
  match c with
  | Ret _ => false
  | Vis _ _ => true
  end.

(** The executions of [_doRefresh] in flight. *)
Definition in_flight (m : Machine) : list PromiseId :=
  filter (fun p => settled m p = None) (seq 0 (length (executions m))).

Definition with_executions (m : Machine) (l : list (M (option string))) : Machine :=
  {| _refreshPromise := _refreshPromise m; executions := l; callers := callers m |}.

Definition with_callers (m : Machine) (l : list (M (option string))) : Machine :=
  {| _refreshPromise := _refreshPromise m; executions := executions m; callers := l |}.

(** What can happen next.  A continuation may resume as soon as the
    promise it awaits has settled, in any order: the order of the job
    queue is one of them. *)
Inductive Label : Type :=
(* somebody calls refreshAuthToken(_refreshToken) *)
| CallRefreshAuthToken (_refreshToken : option string)
(* the collaborator call that execution p awaits settles; answer is what
   the collaborators and the clock answer at that moment *)
| Settle (p : PromiseId) (answer : forall X, Ev X -> X)
(* the promise caller i awaits has settled and its continuation runs *)
| Resume (i : nat).

(** The promise a call awaits and its continuation. *)
Definition awaiting {R} (c : Prog R)
  : option (PromiseId * (Outcome (option string) -> Prog R)) :=
  match c with
  | Ret _ => None
  | Vis e k =>
    match e in Ev X return (X -> Prog R) -> option _ with
    | Await p => fun k => Some (p, k)
    | _ => fun _ => None
    end k
  end.

Definition step (m : Machine) (l : Label) : option Machine :=
  match l with
  | CallRefreshAuthToken a =>
    let '(c, m1) := run_sync (refreshAuthToken a) m in
    Some (with_callers m1 (callers m1 ++ [c]))
  | Settle p answer =>
    match executions m !! p with
    | Some (Vis e k) =>
      if is_collaborator e then
        let '(c, m1) := run_sync (run_clock answer (k (answer _ e))) m in
        Some (with_executions m1 (<[p := c]> (executions m1)))
      else None
    | _ => None
    end
  | Resume i =>
    match callers m !! i with
    | Some c =>
      match awaiting c with
      | Some (p, k) =>
        match settled m p with
        | Some o =>
          let '(c1, m1) := run_sync (k o) m in
          Some (with_callers m1 (<[i := c1]> (callers m1)))
        | None => None
        end
      | None => None
      end
    | None => None
    end
  end.

Fixpoint run (m : Machine) (ls : list Label) : option Machine :=
  match ls with
  | [] => Some m
  | l :: ls =>
    match step m l with
    | Some m1 => run m1 ls
    | None => None
    end
  end.

(** The answers collaborators give in world [w]. *)
Definition mock_reply (w : Mock) (X : Type) (e : Ev X) : X :=
  fst (mock_collaborators e w).

(** Two calls at once, the refresh succeeds, both calls resume. *)
Definition two_callers : list Label :=
  [CallRefreshAuthToken None; CallRefreshAuthToken (Some "stale-refresh-token");
   Settle 0%nat (mock_reply scenario_B); Resume 0%nat; Resume 1%nat].

(** The outcome caller [i] has observed, once its call has finished. *)
Definition observed (m : Machine) (i : nat) : option (Outcome (option string)) :=
  match callers m !! i with
  | Some (Ret o) => Some o
  | _ => None
  end.

(** What remains of a [refreshAuthToken()] call once it is suspended: the
    call that started the execution, and a call that found one under
    way. *)
Definition leader (p : PromiseId) : M (option string) :=
  try_finally (await (Await p)) (perform (WriteRefreshPromise None)).

Definition joiner (p : PromiseId) : M (option string) :=
  try_catch (await (Await p)) (fun _ => ret None).

(** A program that cannot end by throwing. *)
Fixpoint no_throw {A} (c : M A) : Prop :=
  match c with
  | Ret (Threw _) => False
  | Ret (Returned _) => True
  | Vis e k => forall x, no_throw (k x)
  end.

Definition is_internal (c : Call) : bool := negb (is_collaborator (projT2 c)).

Unset Implicit Arguments.

(** The invariant of the machine. *)
Record Inv (m : Machine) : Prop := mkInv {
  (* an execution in flight is the one _refreshPromise holds *)
  inv_in_flight : forall p,
    (p < length (executions m))%nat -> settled m p = None ->
    _refreshPromise m = Some p;
  (* _refreshPromise holds the promise of an execution, whose leader has
     not resumed yet *)
  inv_marker : forall p,
    _refreshPromise m = Some p ->
    (p < length (executions m))%nat /\
    exists i, callers m !! i = Some (leader p);
  (* every call is a leader, a joiner or finished *)
  inv_callers : forall i c,
    callers m !! i = Some c ->
    (exists p, c = leader p /\ _refreshPromise m = Some p)
    \/ (exists p, c = joiner p /\ (p < length (executions m))%nat)
    \/ (exists p v, c = Ret (Returned v) /\ settled m p = Some (Returned v));
  (* there is one leader at most *)
  inv_leader : forall i j p q,
    callers m !! i = Some (leader p) -> callers m !! j = Some (leader q) ->
    i = j;
  (* an execution calls collaborators only, and cannot throw *)
  inv_executions : forall p c,
    executions m !! p = Some c -> never is_internal c /\ no_throw c
}.

(** Caller code [c] is bound to the outcome of execution [p]. *)
Definition tracks (m : Machine) (p : PromiseId) (c : M (option string)) : Prop :=
  c = leader p \/ c = joiner p
  \/ exists v, c = Ret (Returned v) /\ settled m p = Some (Returned v).

(** The promise a suspended call awaits. *)
Definition awaited {R} (c : Prog R) : option PromiseId :=
  match awaiting c with
  | Some (p, _) => Some p
  | None => None
  end.

(** [refreshAuthToken] called once for each argument of a list, with
    nothing happening in between. *)
Definition simultaneous_calls (args : list (option string)) : list Label :=
  map CallRefreshAuthToken args.

(** The machine after the two calls of [two_callers]. *)
Definition after_two_calls : Machine :=
  {| _refreshPromise := Some 0%nat;
     executions := [_doRefresh];
     callers := [leader 0%nat; joiner 0%nat] |}.

(** The calls of a run, with their arguments forgotten. *)
Definition forget_argument (l : Label) : Label :=
  match l with
  | CallRefreshAuthToken _ => CallRefreshAuthToken None
  | l => l
  end.

(** A refresh of the identity client that is handed a refresh token. *)
Definition passes_refresh_token (c : Call) : bool :=
  match projT2 c with
  | RefreshSession (Some _) => true
  | _ => false
  end.

(** ** The session-ready gate: [session_ready_gate.js]

    [sessionReady] is a promise created pending; [_resolve] is its resolve
    function.  The gate is kept with the continuations parked on the
    promise and the ones released to the job queue. *)
Inductive PromiseState : Type := Pending | Fulfilled.

Record Gate (K : Type) := mkGate {
  sessionReady : PromiseState;
  reactions : list K;
  jobs : list K
}.
Arguments mkGate {K}.
Arguments sessionReady {K}.
Arguments reactions {K}.
Arguments jobs {K}.

(** [new Promise(resolve => { _resolve = resolve; })] *)
Definition new_gate {K} : Gate K :=
  {| sessionReady := Pending; reactions := []; jobs := [] |}.

(** [_resolve()]: the first call fulfils the promise and releases what
    is parked on it; a resolve function called again does nothing. *)
Definition _resolve {K} (g : Gate K) : Gate K :=
  match sessionReady g with
  | Pending =>
    {| sessionReady := Fulfilled; reactions := []; jobs := jobs g ++ reactions g |}
  | Fulfilled => g
  end.

Definition markSessionReady {K} (g : Gate K) : Gate K := _resolve g.

(** [await sessionReady] with continuation [k]. *)
Definition awaitSessionReady {K} (k : K) (g : Gate K) : Gate K :=
  match sessionReady g with
  | Pending =>
    {| sessionReady := Pending; reactions := reactions g ++ [k]; jobs := jobs g |}
  | Fulfilled =>
    {| sessionReady := Fulfilled; reactions := reactions g; jobs := jobs g ++ [k] |}
  end.

(** The job queue runs its first job. *)
Definition run_job {K} (g : Gate K) : Gate K :=
  {| sessionReady := sessionReady g; reactions := reactions g; jobs := tail (jobs g) |}.

(** What the rest of the program can do with the gate. *)
Inductive GateOp (K : Type) : Type :=
| MarkSessionReady
| AwaitSessionReady (k : K)
| RunJob.
Arguments MarkSessionReady {K}.
Arguments AwaitSessionReady {K} k.
Arguments RunJob {K}.

Definition gate_step {K} (g : Gate K) (op : GateOp K) : Gate K :=
  match op with
  | MarkSessionReady => markSessionReady g
  | AwaitSessionReady k => awaitSessionReady k g
  | RunJob => run_job g
  end.

Definition gate_run {K} (g : Gate K) (ops : list (GateOp K)) : Gate K :=
  fold_left gate_step ops g.

(** ** The rest of [auth_state_manager.js]

    [DEMO_MODE_OVERRIDE] is a constant of [ENVIRONMENT_CONFIG.js]; the
    functions that read it take it as an argument.  The module variable
    [_cachedAuthState] ([null], [true] or [false]) is passed explicitly:
    [updateCachedAuthState] yields the value it assigns. *)

Set Implicit Arguments.

(** [restoreSupabaseSession()] *)
Definition restoreSupabaseSession : M bool :=
  try_catch
    (let* r := await GetSession in
     if negb (absent (error r)) then ret false
     else if truthy (opt_access_token (data_session r)) then
       let* ttl := ttl_for_log (opt_expires_at (data_session r)) in
       ret true
     else ret false)
    (fun err => ret false).

(** [isDemoMode()].  The [try] block yields [Some b] when the function
    returns [b] from inside it and [None] when control leaves the block. *)
Definition isDemoMode (DEMO_MODE_OVERRIDE : bool) : M bool :=
  if DEMO_MODE_OVERRIDE then ret true
  else
    let* inside :=
      try_catch
        (let* r := await GetSession in
         if truthy (opt_access_token (data_session r)) then
           let* now := perform DateNow in
           if now <? expiresAtMs (opt_expires_at (data_session r))
           then ret (Some false)
           else
             (* Token expired: try refresh *)
             let* refreshed := getAuthToken in
             if truthy refreshed then ret (Some false) else ret None
         else ret None)
        (fun error => ret None) in
    match inside with
    | Some b => ret b
    | None => ret true
    end.

(** [isDemoModeSync()], given the current [_cachedAuthState] *)
Definition isDemoModeSync (DEMO_MODE_OVERRIDE : bool)
    (_cachedAuthState : option bool) : bool :=
  if DEMO_MODE_OVERRIDE then true
  else match _cachedAuthState with
       | None => true
       | Some authenticated => negb authenticated
       end.

(** [isGuestMode()] *)
Definition isGuestMode (DEMO_MODE_OVERRIDE : bool) : M bool :=
  if DEMO_MODE_OVERRIDE then ret false
  else
    let* token := getAuthToken in
    ret (negb (truthy token)).

(** [updateCachedAuthState()]: the new value of [_cachedAuthState] *)
Definition updateCachedAuthState : M (option bool) :=
  try_catch
    (let* r := await GetSession in
     ret (Some (truthy (opt_access_token (data_session r)))))
    (fun error => ret (Some false)).

(** [checkAndRefreshToken()] *)
Definition checkAndRefreshToken : M unit :=
  try_catch
    (let* _ := getAuthToken in ret tt)
    (fun error => ret tt).

(** A program all of whose outcomes satisfy [P], whatever is answered. *)
Fixpoint always {R} (P : R -> Prop) (c : Prog R) : Prop :=
  match c with
  | Ret r => P r
  | Vis e k => forall x, always P (k x)
  end.

(** A value a token function may hand back: [null] or a non-empty
    string, and not an exception. *)
Definition null_or_token (o : Outcome (option string)) : Prop :=
  match o with
  | Returned v => v = None \/ truthy v = true
  | Threw _ => False
  end.

(** What [forceRefreshToken] may do: throw, or hand back a non-empty
    string. *)
Definition token_or_throw (o : Outcome (option string)) : Prop :=
  match o with
  | Returned v => truthy v = true
  | Threw _ => True
  end.

(** The calls [_doRefresh] may make: the identity client's refresh
    without argument, a read of the session's key in the durable store,
    [setSession] with a refresh token, and a read of the clock. *)
Definition allowed_in_doRefresh (c : Call) : Prop :=
  match projT2 c with
  | RefreshSession None => True
  | StorageGet key => key = "fitly-auth-token"
  | SetSession _ refresh => truthy refresh = true
  | DateNow => True
  | _ => False
  end.

Definition is_dateNow (c : Call) : bool :=
  match projT2 c with DateNow => true | _ => false end.

Definition is_storageGet (c : Call) : bool :=
  match projT2 c with StorageGet _ => true | _ => false end.
Definition is_setSession (c : Call) : bool :=
  match projT2 c with SetSession _ _ => true | _ => false end.

(** A request of [makeAuthenticatedRequest(url, options)] as it should
    be: to [url], with a bearer token that is not empty, the JSON content
    type, the caller's other headers and options untouched. *)
Definition well_formed_request (url : string) (options : RequestInit)
    (c : Call) : Prop :=
  match projT2 c with
  | Fetch u init =>
    u = url
    /\ (exists token, token <> ""
          /\ headers init !! "Authorization" = Some ("Bearer " +:+ token))
    /\ headers init !! "Content-Type" = Some "application/json"
    /\ (forall name, name <> "Authorization" -> name <> "Content-Type" ->
          headers init !! name = headers options !! name)
    /\ other_options init = other_options options
  | _ => True
  end.

(** A program every call of which satisfies [P], whatever is answered. *)
Fixpoint every {R} (P : Call -> Prop) (c : Prog R) : Prop :=
  match c with
  | Ret _ => True
  | Vis e k => P (call e) /\ forall x, every P (k x)
  end.

(** A program that makes at most [n] calls selected by [f], whatever is
    answered. *)
Fixpoint at_most {R} (f : Call -> bool) (n : nat) (c : Prog R) : Prop :=
  match c with
  | Ret _ => True
  | Vis e k =>
    if f (call e)
    then match n with
         | O => False
         | S n' => forall x, at_most f n' (k x)
         end
    else forall x, at_most f n (k x)
  end.

(** The continuations handed to [await sessionReady] in a sequence of
    operations, in order. *)
Fixpoint awaiters {K} (ops : list (GateOp K)) : list K :=
  match ops with
  | [] => []
  | AwaitSessionReady k :: ops => k :: awaiters ops
  | _ :: ops => awaiters ops
  end.

(** ** The service worker: [service_worker.js]

    The start-up sequence calls the token manager and a few more things:
    [chrome.storage.session.setAccessLevel], [markSessionReady], and
    [startAutoSync] and [syncFromCloud] of [cloud_sync.js].  [startProactiveRefreshTimer] is
    an empty function ([auth_handlers.js]) and leaves no call.  The
    assignment [updateCachedAuthState] makes to [_cachedAuthState] is a
    call of its own here. *)
Inductive HostEv : Type -> Type :=
| TokenManager {X : Type} (e : Ev X) : HostEv X
| SetAccessLevel (accessLevel : string) : HostEv (Outcome unit)
| AssignCachedAuthState (v : option bool) : HostEv unit
| CallMarkSessionReady : HostEv unit
| StartAutoSync : HostEv (Outcome unit)
(* setTimeout(async () => { await syncFromCloud(); }, delay) *)
| ScheduleSyncFromCloud (delay : Z) : HostEv unit.

Inductive Host (R : Type) : Type :=
| HRet (r : R)
| HVis (X : Type) (e : HostEv X) (k : X -> Host R).
Arguments HRet {R} r.
Arguments HVis {R X} e k.

Fixpoint host_bind {A B} (c : Host A) (f : A -> Host B) : Host B :=
  match c with
  | HRet a => f a
  | HVis e k => HVis e (fun x => host_bind (k x) f)
  end.

(** A function of the token manager, called from the service worker. *)
Fixpoint embed {R} (c : Prog R) : Host R :=
  match c with
  | Ret r => HRet r
  | Vis e k => HVis (TokenManager e) (fun x => embed (k x))
  end.

Definition hbind {A B} (c : Host (Outcome A)) (f : A -> Host (Outcome B))
  : Host (Outcome B) :=
  host_bind c (fun o => match o with
                        | Returned a => f a
                        | Threw err => HRet (Threw err)
                        end).

Definition hret {A} (a : A) : Host (Outcome A) := HRet (Returned a).
Definition hawait {A} (e : HostEv (Outcome A)) : Host (Outcome A) := HVis e HRet.
Definition hperform {A} (e : HostEv A) : Host (Outcome A) :=
  HVis e (fun x => HRet (Returned x)).

Notation "'let+' x ':=' c 'in' k" := (hbind c (fun x => k))
  (at level 10, x name, c at level 100, k at level 200) : js_scope.

(** The start-up sequence: the anonymous async function of
    [service_worker.js]. *)
Definition startup : Host (Outcome unit) :=
  let+ _ := hawait (SetAccessLevel "TRUSTED_AND_UNTRUSTED_CONTEXTS") in
  let+ _ := embed restoreSupabaseSession in
  let+ cached := embed updateCachedAuthState in
  let+ _ := hperform (AssignCachedAuthState cached) in
  let+ _ := hperform CallMarkSessionReady in
  let+ token := embed getAuthToken in
  if truthy token then
    let+ _ := hawait StartAutoSync in
    let+ _ := hperform (ScheduleSyncFromCloud 2000) in
    hret tt
  else hret tt.

Definition HostCall : Type := sigT HostEv.
Definition hcall {X} (e : HostEv X) : HostCall := existT X e.

(** A call of the token manager, seen from the service worker. *)
Definition lift_call (c : Call) : HostCall := hcall (TokenManager (projT2 c)).

Definition is_mark (c : HostCall) : bool :=
  match projT2 c with CallMarkSessionReady => true | _ => false end.

Definition hcount (f : HostCall -> bool) (t : list HostCall) : nat :=
  length (filter (fun c => f c = true) t).

Section HostExec.
Context {W : Type} (h : forall X, HostEv X -> W -> X * W).

Fixpoint host_exec {R} (c : Host R) (w : W) : R * W * list HostCall :=
  match c with
  | HRet r => (r, w, [])
  | HVis e k =>
    let '(x, w1) := h e w in
    let '(r, w2, t) := host_exec (k x) w1 in
    (r, w2, hcall e :: t)
  end.

Definition host_result {R} (c : Host R) (w : W) : R := fst (fst (host_exec c w)).
Definition host_trace {R} (c : Host R) (w : W) : list HostCall :=
  snd (host_exec c w).

(** The token manager's share of the world. *)
Definition token_manager_world : forall X, Ev X -> W -> X * W :=
  fun X e => h (TokenManager e).

(** The world in which the start-up sequence opens the gate, when
    [setAccessLevel] has succeeded. *)
Definition world_at_gate (w : W) : W :=
  let w1 := snd (h (SetAccessLevel "TRUSTED_AND_UNTRUSTED_CONTEXTS") w) in
  let w2 := final token_manager_world restoreSupabaseSession w1 in
  let '(cached, w3, _) := exec token_manager_world updateCachedAuthState w2 in
  let w4 := match cached with
            | Returned v => snd (h (AssignCachedAuthState v) w3)
            | Threw _ => w3
            end in
  snd (h CallMarkSessionReady w4).
End HostExec.

(** What the start-up sequence does once [getAuthToken] has answered. *)
Definition sync_calls (token : Outcome (option string)) (t : list HostCall)
  : Prop :=
  match token with
  | Returned v =>
    if truthy v
    then t = [hcall StartAutoSync; hcall (ScheduleSyncFromCloud 2000)]
         \/ t = [hcall StartAutoSync]
    else t = []
  | Threw _ => t = []
  end.


(** ** Concrete runs *)

(** The machine once the execution started by a first call has settled
    with a new token, the call itself not yet resumed. *)
Definition after_settlement : Machine :=
  {| _refreshPromise := Some 0%nat;
     executions := [Ret (Returned (Some "new-fresh-token"))];
     callers := [leader 0%nat] |}.

(** The machine at the end of [two_callers]. *)
Definition after_two_callers : Machine :=
  {| _refreshPromise := None;
     executions := [Ret (Returned (Some "new-fresh-token"))];
     callers := [Ret (Returned (Some "new-fresh-token"));
                 Ret (Returned (Some "new-fresh-token"))] |}.
Set Implicit Arguments.

Section ExecFacts.
Context {W : Type} (h : forall X, Ev X -> W -> X * W).

Lemma exec_eta {R} (c : Prog R) w :
  exec h c w = (result h c w, final h c w, trace h c w).
Proof. unfold result, final, trace. by destruct (exec h c w) as [[] ]. Qed.

Lemma exec_prog_bind {A B} (c : Prog A) (f : A -> Prog B) w :
  exec h (prog_bind c f) w =
  let '(a, w1, t1) := exec h c w in
  let '(b, w2, t2) := exec h (f a) w1 in
  (b, w2, t1 ++ t2).
Proof.
  revert w. induction c as [a | X e k IH]; intros w; simpl.
  - by destruct (exec h (f a) w) as [[] ].
  - destruct (h e w) as [x w1]. rewrite IH.
    destruct (exec h (k x) w1) as [[a w2] t1].
    by destruct (exec h (f a) w2) as [[] ].
Qed.

Lemma result_prog_bind {A B} (c : Prog A) (f : A -> Prog B) w :
  result h (prog_bind c f) w = result h (f (result h c w)) (final h c w).
Proof.
  unfold result, final. rewrite exec_prog_bind.
  destruct (exec h c w) as [[a w1] t1]; simpl.
  by destruct (exec h (f a) w1) as [[] ].
Qed.

Lemma final_prog_bind {A B} (c : Prog A) (f : A -> Prog B) w :
  final h (prog_bind c f) w = final h (f (result h c w)) (final h c w).
Proof.
  unfold result, final. rewrite exec_prog_bind.
  destruct (exec h c w) as [[a w1] t1]; simpl.
  by destruct (exec h (f a) w1) as [[] ].
Qed.

Lemma trace_prog_bind {A B} (c : Prog A) (f : A -> Prog B) w :
  trace h (prog_bind c f) w = trace h c w ++ trace h (f (result h c w)) (final h c w).
Proof.
  unfold result, final, trace. rewrite exec_prog_bind.
  destruct (exec h c w) as [[a w1] t1]; simpl.
  by destruct (exec h (f a) w1) as [[] ].
Qed.

Lemma result_vis {R X} (e : Ev X) (k : X -> Prog R) w :
  result h (Vis e k) w = result h (k (fst (h e w))) (snd (h e w)).
Proof.
  unfold result; simpl. destruct (h e w) as [x w1]; simpl.
  by destruct (exec h (k x) w1) as [[] ].
Qed.

Lemma final_vis {R X} (e : Ev X) (k : X -> Prog R) w :
  final h (Vis e k) w = final h (k (fst (h e w))) (snd (h e w)).
Proof.
  unfold final; simpl. destruct (h e w) as [x w1]; simpl.
  by destruct (exec h (k x) w1) as [[] ].
Qed.

Lemma trace_vis {R X} (e : Ev X) (k : X -> Prog R) w :
  trace h (Vis e k) w = call e :: trace h (k (fst (h e w))) (snd (h e w)).
Proof.
  unfold trace; simpl. destruct (h e w) as [x w1]; simpl.
  by destruct (exec h (k x) w1) as [[] ].
Qed.
Lemma result_ret {R} (r : R) w : result h (Ret r) w = r.
Proof. reflexivity. Qed.

Lemma final_ret {R} (r : R) w : final h (Ret r) w = w.
Proof. reflexivity. Qed.

Lemma trace_ret {R} (r : R) w : trace h (Ret r) w = [].
Proof. reflexivity. Qed.

Lemma count_app f (t1 t2 : list Call) :
  count f (t1 ++ t2) = (count f t1 + count f t2)%nat.
Proof. unfold count. by rewrite filter_app, length_app. Qed.

Lemma exec_bind {A B} (c : M A) (f : A -> M B) w :
  exec h (bind c f) w =
  match result h c w with
  | Returned a =>
    (result h (f a) (final h c w), final h (f a) (final h c w),
     trace h c w ++ trace h (f a) (final h c w))
  | Threw err => (Threw err, final h c w, trace h c w)
  end.
Proof.
  unfold bind. rewrite exec_eta, result_prog_bind, final_prog_bind,
    trace_prog_bind.
  destruct (result h c w); [done |].
  unfold result, final, trace; simpl. by rewrite app_nil_r.
Qed.

Lemma exec_await {A B} (e : Ev (Outcome A)) (k : A -> M B) w :
  exec h (bind (await e) k) w =
  let '(o, w1) := h e w in
  match o with
  | Returned a =>
    let '(r, w2, t) := exec h (k a) w1 in (r, w2, call e :: t)
  | Threw err => (Threw err, w1, [call e])
  end.
Proof.
  unfold bind, await; simpl. destruct (h e w) as [[a|err] w1]; simpl; done.
Qed.

(** One call of [refreshAuthToken] reads [_refreshPromise] once. *)
Lemma refreshAuthToken_reads_once a w :
  count is_refreshAuthToken (trace h (refreshAuthToken a) w) = 1%nat.
Proof.
  unfold trace, refreshAuthToken; simpl.
  destruct (h ReadRefreshPromise w) as [[p|] w1]; simpl.
  - destruct (h (Await p) w1) as [[v|err] w2]; reflexivity.
  - destruct (h CallDoRefresh w1) as [p w2]; simpl.
    destruct (h (WriteRefreshPromise (Some p)) w2) as [[] w3]; simpl.
    destruct (h (Await p) w3) as [o w4]; simpl.
    destruct (h (WriteRefreshPromise None) w4) as [[] w5]; reflexivity.
Qed.
End ExecFacts.

Section ForceRefresh.
Context {W : Type} (h : forall X, Ev X -> W -> X * W).

(** The refresh that [forceRefreshToken] makes once the TTL check has let
    it through: one call of [refreshAuthToken], then the fallback. *)
Lemma fallback_never_refreshes w :
  count is_refreshAuthToken (trace h fallback_or_fail w) = 0%nat.
Proof.
  unfold trace, fallback_or_fail; simpl.
  destruct (h GetSession w) as [[r|err] w1]; simpl; [|reflexivity].
  destruct (truthy _); simpl; [|reflexivity].
  destruct (opt_expires_at _) as [x|]; simpl.
  - destruct (x =? 0); simpl.
    + reflexivity.
    + destruct (h DateNow w1) as [now w2]; simpl.
      by destruct (0 <? _).
  - reflexivity.
Qed.

Lemma after_check_refreshes_once w :
  count is_refreshAuthToken
    (trace h (let* freshToken := refreshAuthToken None in
              if truthy freshToken then ret freshToken
              else fallback_or_fail) w) = 1%nat.
Proof.
  unfold trace at 1. rewrite exec_bind; simpl.
  destruct (result h (refreshAuthToken None) w) as [fresh|err] eqn:E; simpl.
  - rewrite count_app, refreshAuthToken_reads_once.
    destruct (truthy fresh); [reflexivity |].
    by rewrite fallback_never_refreshes.
  - apply refreshAuthToken_reads_once.
Qed.

Lemma forceRefreshToken_after_check b w :
  result h (ttl_check b) w = Returned None ->
  count is_refreshAuthToken (trace h (forceRefreshToken b) w) = 1%nat.
Proof.
  intros Hcheck. unfold forceRefreshToken, trace at 1.
  rewrite exec_bind, Hcheck; simpl. rewrite count_app.
  rewrite after_check_refreshes_once.
  enough (count is_refreshAuthToken (trace h (ttl_check b) w) = 0%nat) as ->
    by reflexivity.
  clear Hcheck. unfold trace, ttl_check.
  destruct b; simpl; [reflexivity |].
  destruct (h GetSession w) as [[r|err] w1]; simpl; [|reflexivity].
  destruct (truthy _); simpl; [|reflexivity].
  destruct (h DateNow w1) as [now w2]; simpl.
  by destruct (900 <=? _).
Qed.

(** C2. With at least 900 seconds left (900 included),
    [forceRefreshToken(false)] returns the current access token after
    reading the session and the clock, and does nothing else: no part of
    a refresh happens.  In every other case, that is with less than 900
    seconds left, without a session (or without an access token, or when
    [getSession] throws), or with [bypassTTL] true, it calls
    [refreshAuthToken] exactly once. *)
Theorem forceRefreshToken_ttl_check (w : W) :
  (forall r w1 now w2,
      h GetSession w = (Returned r, w1) ->
      truthy (opt_access_token (data_session r)) = true ->
      h DateNow w1 = (now, w2) ->
      900 <= ttl_at (opt_expires_at (data_session r)) now ->
      exec h (forceRefreshToken false) w =
        (Returned (opt_access_token (data_session r)), w2,
         [call GetSession; call DateNow])
      /\ count is_refresh_activity (trace h (forceRefreshToken false) w) = 0%nat)
  /\ (forall r w1 now w2,
      h GetSession w = (Returned r, w1) ->
      truthy (opt_access_token (data_session r)) = true ->
      h DateNow w1 = (now, w2) ->
      ttl_at (opt_expires_at (data_session r)) now < 900 ->
      count is_refreshAuthToken (trace h (forceRefreshToken false) w) = 1%nat)
  /\ (forall r w1,
      h GetSession w = (Returned r, w1) ->
      truthy (opt_access_token (data_session r)) = false ->
      count is_refreshAuthToken (trace h (forceRefreshToken false) w) = 1%nat)
  /\ (forall err w1,
      h GetSession w = (Threw err, w1) ->
      count is_refreshAuthToken (trace h (forceRefreshToken false) w) = 1%nat)
  /\ count is_refreshAuthToken (trace h (forceRefreshToken true) w) = 1%nat.
Proof.
  split; [| split; [| split; [| split]]].
  - intros r w1 now w2 Hs Htok Hnow Httl. apply Z.leb_le in Httl.
    assert (exec h (forceRefreshToken false) w =
            (Returned (opt_access_token (data_session r)), w2,
             [call GetSession; call DateNow])) as E.
    { unfold forceRefreshToken, ttl_check; simpl.
      rewrite Hs; simpl. rewrite Htok; simpl. rewrite Hnow; simpl.
      by rewrite Httl. }
    split; [exact E |]. unfold trace. by rewrite E.
  - intros r w1 now w2 Hs Htok Hnow Httl.
    apply forceRefreshToken_after_check.
    unfold result, ttl_check; simpl.
    rewrite Hs; simpl. rewrite Htok; simpl. rewrite Hnow; simpl.
    apply Z.leb_gt in Httl. by rewrite Httl.
  - intros r w1 Hs Htok.
    apply forceRefreshToken_after_check.
    unfold result, ttl_check; simpl.
    rewrite Hs; simpl. by rewrite Htok.
  - intros err w1 Hs.
    apply forceRefreshToken_after_check.
    unfold result, ttl_check; simpl. by rewrite Hs.
  - by apply forceRefreshToken_after_check.
Qed.

Lemma forceRefreshToken_refresh_failed b w fresh :
  result h (ttl_check b) w = Returned None ->
  result h (refreshAuthToken None) (final h (ttl_check b) w) = Returned fresh ->
  truthy fresh = false ->
  result h (forceRefreshToken b) w =
  result h fallback_or_fail
    (final h (refreshAuthToken None) (final h (ttl_check b) w)).
Proof.
  intros Hcheck Hfresh Hfalsy. unfold forceRefreshToken, result at 1.
  rewrite exec_bind, Hcheck; simpl.
  unfold result at 1. rewrite exec_bind, Hfresh; simpl.
  by rewrite Hfalsy.
Qed.

(** C3. When the TTL check lets the call through and [refreshAuthToken]
    comes back without a token, [forceRefreshToken] reads the session
    again.  If that session has an access token and more than 0 seconds
    left, the call returns this token.  Otherwise (0 seconds or less
    left, no expiry, no session or access token, or [getSession] throws)
    it throws the error whose [errorCode] is "REFRESH_FAILED" and whose
    message contains "Token refresh failed". *)
Theorem forceRefreshToken_fallback (b : bool) (w : W) (fresh : option string) :
  result h (ttl_check b) w = Returned None ->
  result h (refreshAuthToken None) (final h (ttl_check b) w) = Returned fresh ->
  truthy fresh = false ->
  let w2 := final h (refreshAuthToken None) (final h (ttl_check b) w) in
  let failure := result h (forceRefreshToken b) w = Threw REFRESH_FAILED_error in
  (forall r w3 x now w4,
      h GetSession w2 = (Returned r, w3) ->
      truthy (opt_access_token (data_session r)) = true ->
      opt_expires_at (data_session r) = Some x -> x <> 0 ->
      h DateNow w3 = (now, w4) ->
      (0 < ttl_at (Some x) now ->
       result h (forceRefreshToken b) w =
         Returned (opt_access_token (data_session r)))
      /\ (ttl_at (Some x) now <= 0 -> failure))
  /\ (forall r w3,
      h GetSession w2 = (Returned r, w3) ->
      truthy (opt_access_token (data_session r)) = true ->
      opt_expires_at (data_session r) = None
      \/ opt_expires_at (data_session r) = Some 0 ->
      failure)
  /\ (forall r w3,
      h GetSession w2 = (Returned r, w3) ->
      truthy (opt_access_token (data_session r)) = false ->
      failure)
  /\ (forall err w3, h GetSession w2 = (Threw err, w3) -> failure)
  /\ errorCode REFRESH_FAILED_error = Some "REFRESH_FAILED"
  /\ includes (message REFRESH_FAILED_error) "Token refresh failed" = true.
Proof.
  intros Hcheck Hfresh Hfalsy w2 failure. subst failure.
  rewrite (forceRefreshToken_refresh_failed _ _ Hcheck Hfresh Hfalsy).
  fold w2. unfold result, fallback_or_fail; simpl.
  split; [| split; [| split; [| split; [| split]]]]; [| | | | done | done].
  - intros r w3 x now w4 Hs Htok Hexp Hx Hnow.
    rewrite Hs; simpl. rewrite Htok, Hexp; simpl.
    apply Z.eqb_neq in Hx. rewrite Hx; simpl. rewrite Hnow; simpl.
    unfold ttl_at, expiresAtMs. rewrite Hx. split.
    + intros Hpos. apply Z.ltb_lt in Hpos. by rewrite Hpos.
    + intros Hneg. apply Z.ltb_ge in Hneg. by rewrite Hneg.
  - intros r w3 Hs Htok [He|He]; rewrite Hs; simpl; by rewrite Htok, He.
  - intros r w3 Hs Htok. rewrite Hs; simpl. by rewrite Htok.
  - intros err w3 Hs. by rewrite Hs.
Qed.
End ForceRefresh.

Section GetAuthToken.
Context {W : Type} (h : forall X, Ev X -> W -> X * W).

Lemma getAuthToken_never_throws w :
  exists v, result h getAuthToken w = Returned v.
Proof.
  unfold getAuthToken, try_catch. rewrite result_prog_bind.
  destruct (result h _ w); eexists; reflexivity.
Qed.

(** [getAuthToken] once it has a session with an access token and at
    most 60 seconds left. *)
Lemma getAuthToken_near_expiry w r w1 now w2 :
  h GetSession w = (Returned r, w1) ->
  error r = None ->
  truthy (opt_access_token (data_session r)) = true ->
  h DateNow w1 = (now, w2) ->
  ttl_at (opt_expires_at (data_session r)) now <= 60 ->
  exec h getAuthToken w =
  (match result h (refreshAuthToken None) w2 with
   | Returned fresh =>
     if truthy fresh then Returned fresh
     else if 0 <? ttl_at (opt_expires_at (data_session r)) now
          then Returned (opt_access_token (data_session r))
          else Returned None
   | Threw _ => Returned None
   end,
   final h (refreshAuthToken None) w2,
   [call GetSession; call DateNow] ++ trace h (refreshAuthToken None) w2).
Proof.
  intros Hs Herr Htok Hnow Httl.
  unfold getAuthToken, try_catch. rewrite exec_prog_bind.
  cbn [exec bind prog_bind await perform]. rewrite Hs.
  cbn [exec bind prog_bind await perform]. rewrite Herr, Htok.
  cbn [negb absent]. cbn [exec bind prog_bind await perform]. rewrite Hnow.
  apply Z.leb_le in Httl. unfold CLOCK_SKEW_TOLERANCE_S. rewrite Httl.
  fold (bind (refreshAuthToken None)
          (fun freshToken : option string =>
             if truthy freshToken then ret freshToken
             else if 0 <? ttl_at (opt_expires_at (data_session r)) now
                  then ret (opt_access_token (data_session r))
                  else ret None)).
  rewrite exec_bind.
  destruct (result h (refreshAuthToken None) w2) as [fresh|err]; simpl.
  - unfold ret.
    destruct (truthy fresh); [|destruct (0 <? _)];
      rewrite result_ret, final_ret, trace_ret; simpl;
      by rewrite !app_nil_r.
  - by rewrite app_nil_r.
Qed.

(** C4. [getAuthToken] never throws: whatever its collaborators answer
    or throw, it returns a token or [null].  Without a session (or
    without an access token in it) it returns [null] at once.  With more
    than 60 seconds left it returns the current access token and makes
    no refresh.  With 60 seconds or less it calls [refreshAuthToken]
    once and returns the new token when there is one; when there is
    none it returns the current token if more than 0 seconds are left
    and [null] otherwise. *)
Theorem getAuthToken_cases (w : W) :
  (exists v, result h getAuthToken w = Returned v)
  /\ (forall r w1,
      h GetSession w = (Returned r, w1) ->
      truthy (opt_access_token (data_session r)) = false ->
      exec h getAuthToken w = (Returned None, w1, [call GetSession]))
  /\ (forall r w1 now w2,
      h GetSession w = (Returned r, w1) ->
      error r = None ->
      truthy (opt_access_token (data_session r)) = true ->
      h DateNow w1 = (now, w2) ->
      let ttl := ttl_at (opt_expires_at (data_session r)) now in
      let current := opt_access_token (data_session r) in
      (60 < ttl ->
       exec h getAuthToken w =
         (Returned current, w2, [call GetSession; call DateNow]))
      /\ (ttl <= 60 ->
          count is_refreshAuthToken (trace h getAuthToken w) = 1%nat
          /\ forall fresh,
              result h (refreshAuthToken None) w2 = Returned fresh ->
              (truthy fresh = true ->
               result h getAuthToken w = Returned fresh)
              /\ (truthy fresh = false -> 0 < ttl ->
                  result h getAuthToken w = Returned current)
              /\ (truthy fresh = false -> ttl <= 0 ->
                  result h getAuthToken w = Returned None))).
Proof.
  split; [apply getAuthToken_never_throws |]. split.
  - intros r w1 Hs Htok. unfold getAuthToken, try_catch.
    rewrite exec_prog_bind. cbn [exec bind prog_bind await perform].
    rewrite Hs. cbn [exec bind prog_bind await perform]. rewrite Htok.
    by destruct (absent (error r)).
  - intros r w1 now w2 Hs Herr Htok Hnow ttl current. split.
    + intros Httl. unfold getAuthToken, try_catch.
      rewrite exec_prog_bind. cbn [exec bind prog_bind await perform].
      rewrite Hs. cbn [exec bind prog_bind await perform].
      rewrite Herr, Htok. cbn [negb absent].
      cbn [exec bind prog_bind await perform]. rewrite Hnow.
      fold ttl. unfold CLOCK_SKEW_TOLERANCE_S.
      apply Z.leb_gt in Httl. by rewrite Httl.
    + intros Httl.
      pose proof (getAuthToken_near_expiry Hs Herr Htok Hnow Httl) as E.
      fold ttl current in E. split.
      * unfold trace at 1. rewrite E. cbn [snd]. rewrite count_app.
        by rewrite refreshAuthToken_reads_once.
      * intros fresh Hfresh.
        replace (result h getAuthToken w) with (fst (fst (exec h getAuthToken w)))
          by reflexivity.
        rewrite E, Hfresh. cbn [fst]. repeat split.
        -- by intros ->.
        -- intros -> Hpos. apply Z.ltb_lt in Hpos. by rewrite Hpos.
        -- intros -> Hneg. apply Z.ltb_ge in Hneg. by rewrite Hneg.
Qed.
End GetAuthToken.

Section DoRefresh.
Context {W : Type} (h : forall X, Ev X -> W -> X * W).

Lemma logs_ttl_new_token o : new_token o = None -> logs_ttl o = false.
Proof.
  destruct o as [r|err]; [| done]. simpl. unfold has_token.
  destruct (absent (error r)); [| done]. cbn [andb].
  destruct (truthy (opt_access_token (data_session r))) eqn:E; [| done].
  intros Hn. rewrite Hn in E. done.
Qed.

Lemma doRefresh_primary_ok w o1 w1 t :
  h (RefreshSession None) w = (o1, w1) ->
  new_token o1 = Some t ->
  exec h _doRefresh w =
    (Returned (Some t), world_after_log h o1 w1,
     call (RefreshSession None) :: log_calls o1).
Proof.
  intros H1 Ht. unfold _doRefresh, try_catch, bind; simpl. rewrite H1.
  destruct o1 as [r|err]; simpl in Ht |- *; [| done].
  unfold world_after_log, log_calls, logs_ttl.
  destruct (has_token r); simpl; [| done].
  destruct (opt_expires_at (data_session r)) as [x|]; simpl;
    [| by rewrite Ht].
  destruct (Z.eqb x 0); simpl; [by rewrite Ht |].
  destruct (h DateNow w1). simpl. by rewrite Ht.
Qed.

Lemma doRefresh_rescue w o1 w1 :
  h (RefreshSession None) w = (o1, w1) ->
  new_token o1 = None ->
  exec h _doRefresh w =
  let '(st, w2) := h (StorageGet "fitly-auth-token") w1 in
  match rescuable st with
  | None => (Returned None, w2, [call (RefreshSession None); call (StorageGet "fitly-auth-token")])
  | Some parsed =>
    let install := SetSession (stored_access_token parsed)
                              (stored_refresh_token parsed) in
    let '(se, w3) := h install w2 in
    match se with
    | Returned None =>
      let '(o2, w4) := h (RefreshSession None) w3 in
      (Returned (new_token o2), world_after_log h o2 w4,
       [call (RefreshSession None); call (StorageGet "fitly-auth-token");
        call install; call (RefreshSession None)] ++ log_calls o2)
    | _ => (Returned None, w3, [call (RefreshSession None); call (StorageGet "fitly-auth-token");
        call install])
    end
  end.
Proof.
  intros H1 Ht. unfold _doRefresh, try_catch, bind; simpl. rewrite H1.
  destruct o1 as [r|err]; simpl in Ht |- *.
  1: destruct (has_token r) eqn:E;
    [unfold has_token in E; rewrite Ht in E; simpl in E;
     by rewrite andb_false_r in E |].
  all: simpl.
  all: destruct (h (StorageGet "fitly-auth-token") w1) as [[raw|err'] w2];
    simpl; [|done].
  all: destruct (raw_falsy raw); simpl; [done|].
  all: destruct (parse_raw raw) as [[parsed|]|err']; simpl; [|done|done].
  all: destruct (truthy (stored_refresh_token parsed)); simpl; [|done].
  all: destruct (h (SetSession _ _) w2) as [[[e|]|err'] w3]; simpl; try done.
  all: destruct (h (RefreshSession None) w3) as [[r2|err'] w4]; simpl; try done.
  all: unfold world_after_log, log_calls, logs_ttl.
  all: destruct (has_token r2); simpl; try done.
  all: destruct (opt_expires_at (data_session r2)) as [x|]; simpl; try done.
  all: destruct (Z.eqb x 0); simpl; try done.
  all: by destruct (h DateNow w4).
Qed.

(** The identity client's refresh is called once or twice. *)
Lemma doRefresh_refreshes_at_most_twice w :
  (1 <= count is_refreshSession (trace h _doRefresh w) <= 2)%nat.
Proof.
  assert (Hlog : forall o, count is_refreshSession (log_calls o) = 0%nat).
  { intros o. unfold log_calls. by destruct (logs_ttl o). }
  unfold trace.
  destruct (h (RefreshSession None) w) as [o1 w1] eqn:H1.
  destruct (new_token o1) as [t|] eqn:Ht.
  - rewrite (doRefresh_primary_ok H1 Ht). cbn [snd].
    change (call (RefreshSession None) :: ?l)
      with ([call (RefreshSession None)] ++ l).
    rewrite count_app, Hlog. vm_compute. lia.
  - rewrite (doRefresh_rescue H1 Ht).
    destruct (h (StorageGet "fitly-auth-token") w1) as [st w2].
    destruct (rescuable st) as [parsed|]; [|vm_compute; lia].
    cbv zeta.
    destruct (h (SetSession (stored_access_token parsed)
                            (stored_refresh_token parsed)) w2)
      as [[[e|]|err] w3]; [vm_compute; lia | | vm_compute; lia].
    destruct (h (RefreshSession None) w3) as [o2 w4]. cbn [snd].
    rewrite count_app, Hlog. vm_compute. lia.
Qed.

(** C5. [_doRefresh] makes two attempts, in this order.  Its first call
    is always the identity client's refresh; when that yields a token,
    the token is returned and no other collaborator is called.  Only
    otherwise is the durable key read.  Without a stored session that
    has a refresh token, the result is [null] and nothing else is
    called.  With one, [setSession] is called with the stored tokens,
    and once it has installed them without error the refresh is called
    again, exactly once: the result is its token, or [null] when it
    fails.  When [setSession] reports an error or throws, the result is
    [null] and the refresh is not called again.  After a refresh that
    yields a token, and only then, the clock is read for the log when the
    new session has an expiry ([log_calls]); this is the last call. *)
Theorem doRefresh_two_tiers (w : W) o1 w1 :
  h (RefreshSession None) w = (o1, w1) ->
  (forall t, new_token o1 = Some t ->
     exec h _doRefresh w =
       (Returned (Some t), world_after_log h o1 w1,
        call (RefreshSession None) :: log_calls o1))
  /\ (new_token o1 = None ->
      forall st w2,
        h (StorageGet "fitly-auth-token") w1 = (st, w2) ->
        (rescuable st = None ->
         exec h _doRefresh w = (Returned None, w2, [call (RefreshSession None); call (StorageGet "fitly-auth-token")]))
        /\ (forall parsed,
             rescuable st = Some parsed ->
             let install := SetSession (stored_access_token parsed)
                                       (stored_refresh_token parsed) in
             forall se w3,
               h install w2 = (se, w3) ->
               (se <> Returned None ->
                exec h _doRefresh w =
                  (Returned None, w3, [call (RefreshSession None); call (StorageGet "fitly-auth-token");
        call install]))
               /\ (se = Returned None ->
                   forall o2 w4,
                     h (RefreshSession None) w3 = (o2, w4) ->
                     exec h _doRefresh w =
                       (Returned (new_token o2), world_after_log h o2 w4,
                        [call (RefreshSession None); call (StorageGet "fitly-auth-token");
        call install; call (RefreshSession None)] ++ log_calls o2)
                     /\ (new_token o2 = None -> log_calls o2 = [])))).
Proof.
  intros H1. split.
  - intros t Ht. by apply doRefresh_primary_ok.
  - intros Ht st w2 H2.
    rewrite (doRefresh_rescue H1 Ht), H2. split.
    + by intros ->.
    + intros parsed -> install se w3 H3. cbv zeta. fold install.
      rewrite H3. split.
      * intros Hse. destruct se as [[e|]|err]; done.
      * intros -> o2 w4 H4. rewrite H4. split; [done |].
        intros Hn. unfold log_calls. by rewrite (logs_ttl_new_token _ Hn).
Qed.
End DoRefresh.

(** The paths of [_doRefresh] that end with the clock read for the log. *)
Ltac after_refresh r :=
  unfold ttl_for_log;
  destruct (opt_expires_at (data_session r)) as [?|];
  [destruct (Z.eqb _ 0) |]; cbn; repeat first [done | split | intro].

Arguments refreshAuthToken : simpl never.
Arguments getAuthToken : simpl never.

Section StaticFacts.
Context {W : Type} (h : forall X, Ev X -> W -> X * W).

Lemma never_count {R} f (c : Prog R) w :
  never f c -> count f (trace h c w) = 0%nat.
Proof.
  revert w. induction c as [r | X e k IH]; intros w; [done |].
  intros [He Hk]. rewrite trace_vis. unfold count in *. simpl.
  rewrite filter_cons. destruct (decide _) as [E|E]; [congruence |].
  by apply IH.
Qed.

Lemma never_prog_bind {A B} f (c : Prog A) (k : A -> Prog B) :
  never f c -> (forall a, never f (k a)) -> never f (prog_bind c k).
Proof.
  induction c as [r | X e k' IH]; simpl; [auto |].
  intros [He Hk] Hf. split; [done |]. intros x. by apply IH.
Qed.

Lemma refreshAuthToken_never_fetches a : never is_fetch (refreshAuthToken a).
Proof.
  unfold refreshAuthToken. simpl. split; [done |]. intros [p|]; simpl.
  - split; [done |]. by intros [v|err].
  - split; [done |]. intros p. simpl. split; [done |]. intros _. simpl.
    split; [done |]. intros o. simpl. split; done.
Qed.

Lemma getAuthToken_never_fetches : never is_fetch getAuthToken.
Proof.
  unfold getAuthToken, try_catch. apply never_prog_bind.
  - unfold bind. cbn. split; [done |]. intros [r|err]; [|done].
    destruct (negb (absent (error r))); [done |].
    destruct (negb (truthy _)); [done |].
    cbn. split; [done |]. intros now.
    destruct (_ <=? _); [|done].
    apply never_prog_bind; [apply refreshAuthToken_never_fetches |].
    intros [v|err]; [|done].
    destruct (truthy v); [done |]. by destruct (0 <? _).
  - by intros [v|err].
Qed.
End StaticFacts.

Lemma with_bearer_carries options token :
  carries_bearer options token (with_bearer options token).
Proof.
  unfold carries_bearer, with_bearer. simpl. split; [| split; [| split]].
  - rewrite lookup_insert_ne by done. by rewrite lookup_insert_eq.
  - by rewrite lookup_insert_eq.
  - intros name H1 H2. by rewrite !lookup_insert_ne.
  - done.
Qed.

Section AuthenticatedRequest.
Context {W : Type} (h : forall X, Ev X -> W -> X * W).
Variables (url : string) (options : RequestInit).

Lemma request_unauthorized w tok :
  result h getAuthToken w = Returned tok ->
  truthy tok = false ->
  exec h (makeAuthenticatedRequest url options) w =
  (Threw (new_Error "Unauthorized"), final h getAuthToken w,
   trace h getAuthToken w).
Proof.
  intros Htok Hfalsy. unfold makeAuthenticatedRequest.
  rewrite exec_bind, Htok, Hfalsy. cbn [negb]. unfold throw.
  by rewrite result_ret, final_ret, trace_ret, app_nil_r.
Qed.

Lemma request_first_fetch w t resp w2 :
  result h getAuthToken w = Returned (Some t) ->
  t <> "" ->
  h (Fetch url (with_bearer options t)) (final h getAuthToken w) = (resp, w2) ->
  exec h (makeAuthenticatedRequest url options) w =
  match resp with
  | Returned r =>
    (result h (on_response url options r) w2,
     final h (on_response url options r) w2,
     trace h getAuthToken w ++ call (Fetch url (with_bearer options t))
       :: trace h (on_response url options r) w2)
  | Threw err =>
    (Threw err, w2,
     trace h getAuthToken w ++ [call (Fetch url (with_bearer options t))])
  end.
Proof.
  intros Htok Ht Hresp. unfold makeAuthenticatedRequest.
  rewrite exec_bind, Htok.
  assert (truthy (Some t) = true) as ->.
  { simpl. apply negb_true_iff. by apply String.eqb_neq. }
  cbn [negb token_string].
  set (w1 := final h getAuthToken w) in *.
  set (first := Fetch url (with_bearer options t)) in *.
  pose proof (exec_await h first (on_response url options) w1) as E.
  rewrite Hresp in E.
  set (rest := bind (await first) (fun response => on_response url options response)) in *.
  change (result h rest w1) with (fst (fst (exec h rest w1))).
  change (final h rest w1) with (snd (fst (exec h rest w1))).
  change (trace h rest w1) with (snd (exec h rest w1)).
  rewrite E. destruct resp as [r|err]; [|done].
  by rewrite (exec_eta h (on_response url options r) w2).
Qed.

Lemma on_response_other r w2 :
  status r <> 401 ->
  exec h (on_response url options r) w2 = (Returned r, w2, []).
Proof.
  intros Hs. unfold on_response. apply Z.eqb_neq in Hs. by rewrite Hs.
Qed.

Lemma on_response_401 r w2 :
  status r = 401 ->
  exec h (on_response url options r) w2 =
  let w3 := final h (refreshAuthToken None) w2 in
  let t3 := trace h (refreshAuthToken None) w2 in
  match result h (refreshAuthToken None) w2 with
  | Returned newToken =>
    if truthy newToken then
      let retry := Fetch url (with_bearer options (token_string newToken)) in
      (fst (h retry w3), snd (h retry w3), t3 ++ [call retry])
    else (Returned r, w3, t3)
  | Threw err => (Threw err, w3, t3)
  end.
Proof.
  intros Hs. unfold on_response. rewrite Hs. cbn [Z.eqb Pos.eqb].
  rewrite exec_bind.
  destruct (result h (refreshAuthToken None) w2) as [newToken|err]; [|done].
  destruct (truthy newToken).
  - unfold await. rewrite result_vis, final_vis, trace_vis.
    by rewrite result_ret, final_ret, trace_ret.
  - unfold ret. by rewrite result_ret, final_ret, trace_ret, app_nil_r.
Qed.

(** C7. [makeAuthenticatedRequest] first gets a token from
    [getAuthToken]; without one it throws [Unauthorized] and no request
    has been made.  With one it makes the request with this bearer
    token: the request goes to [url], its options are the caller's with
    the header [Authorization: Bearer <token>] and the JSON content type
    put in place ([carries_bearer]).  A failure of that request, or a
    response whose status is not 401, is what the caller gets, and
    nothing else is called.  On a 401 it calls [refreshAuthToken] once
    and, given a new token, makes the request once more, to the same
    [url] and with the new bearer token in the [Authorization] header:
    whatever this second request yields (any response, a 401 included, or
    a failure) is what the caller gets, and there is no third request. *)
Theorem makeAuthenticatedRequest_flow (w : W) :
  let request := makeAuthenticatedRequest url options in
  let w1 := final h getAuthToken w in
  let t1 := trace h getAuthToken w in
  (forall tok,
      result h getAuthToken w = Returned tok -> truthy tok = false ->
      result h request w = Threw (new_Error "Unauthorized")
      /\ count is_fetch (trace h request w) = 0%nat)
  /\ (forall t resp w2,
      result h getAuthToken w = Returned (Some t) -> t <> "" ->
      let first := Fetch url (with_bearer options t) in
      h first w1 = (resp, w2) ->
      carries_bearer options t (with_bearer options t)
      /\ (forall err, resp = Threw err ->
         exec h request w = (Threw err, w2, t1 ++ [call first]))
      /\ (forall r, resp = Returned r -> status r <> 401 ->
         exec h request w = (Returned r, w2, t1 ++ [call first]))
      /\ (forall r newToken,
         resp = Returned r -> status r = 401 ->
         result h (refreshAuthToken None) w2 = Returned (Some newToken) ->
         newToken <> "" ->
         let w3 := final h (refreshAuthToken None) w2 in
         let t3 := trace h (refreshAuthToken None) w2 in
         let retry := Fetch url (with_bearer options newToken) in
         exec h request w =
           (fst (h retry w3), snd (h retry w3),
            t1 ++ call first :: t3 ++ [call retry])
         /\ carries_bearer options newToken (with_bearer options newToken)
         /\ count is_refreshAuthToken t3 = 1%nat
         /\ count is_fetch (trace h request w) = 2%nat)).
Proof.
  intros request w1 t1. split.
  - intros tok Htok Hfalsy. unfold result, trace, request.
    rewrite (request_unauthorized _ Htok Hfalsy). cbn [fst snd].
    split; [done |]. apply never_count, getAuthToken_never_fetches.
  - intros t resp w2 Htok Ht first Hresp. subst request.
    pose proof (request_first_fetch _ Htok Ht Hresp) as E. fold first w1 t1 in E.
    split; [apply with_bearer_carries |]. split; [| split].
    + intros err ->. exact E.
    + intros r -> Hs. rewrite E.
      unfold result, final, trace. by rewrite (on_response_other _ _ Hs).
    + intros r newToken -> Hs Hnew Hne w3 t3 retry.
      assert (exec h (makeAuthenticatedRequest url options) w =
              (fst (h retry w3), snd (h retry w3),
               t1 ++ call first :: t3 ++ [call retry])) as E'.
      { rewrite E. unfold result, final, trace.
        rewrite (on_response_401 _ _ Hs), Hnew.
        assert (truthy (Some newToken) = true) as ->.
        { simpl. apply negb_true_iff. by apply String.eqb_neq. }
        reflexivity. }
      split; [exact E' |]. split; [apply with_bearer_carries |].
      split; [apply refreshAuthToken_reads_once |].
      unfold trace at 1. rewrite E'. cbn [snd]. subst t1 t3.
      rewrite count_app, (@never_count _ h _ _ _ _ getAuthToken_never_fetches).
      change (call first :: ?l) with ([call first] ++ l).
      rewrite !count_app,
        (@never_count _ h _ _ _ _ (refreshAuthToken_never_fetches None)).
      reflexivity.
Qed.

(** C9. When the first response is a 401 and [refreshAuthToken] comes
    back without a token, [makeAuthenticatedRequest] returns that 401
    response as it is: it does not throw and makes no second request. *)
Theorem makeAuthenticatedRequest_401_without_token (w : W) t r w2 newToken :
  let request := makeAuthenticatedRequest url options in
  let first := Fetch url (with_bearer options t) in
  result h getAuthToken w = Returned (Some t) -> t <> "" ->
  h first (final h getAuthToken w) = (Returned r, w2) ->
  status r = 401 ->
  result h (refreshAuthToken None) w2 = Returned newToken ->
  truthy newToken = false ->
  exec h request w =
    (Returned r, final h (refreshAuthToken None) w2,
     trace h getAuthToken w ++ call first :: trace h (refreshAuthToken None) w2)
  /\ count is_fetch (trace h request w) = 1%nat.
Proof.
  intros request first Htok Ht Hresp Hs Hnew Hfalsy. subst request.
  pose proof (request_first_fetch _ Htok Ht Hresp) as E. fold first in E.
  assert (exec h (makeAuthenticatedRequest url options) w =
    (Returned r, final h (refreshAuthToken None) w2,
     trace h getAuthToken w ++ call first :: trace h (refreshAuthToken None) w2))
    as E'.
  { rewrite E. unfold result, final, trace.
    by rewrite (on_response_401 _ _ Hs), Hnew, Hfalsy. }
  split; [exact E' |].
  unfold trace at 1. rewrite E'. cbn [snd].
  rewrite count_app, (@never_count _ h _ _ _ _ getAuthToken_never_fetches).
  change (call first :: ?l) with ([call first] ++ l).
  rewrite count_app,
    (@never_count _ h _ _ _ _ (refreshAuthToken_never_fetches None)).
  reflexivity.
Qed.
End AuthenticatedRequest.

(** ** The refresh mutex *)

Unset Implicit Arguments.

Section Mutex.
Implicit Types (m : Machine) (p : PromiseId).

Lemma run_sync_call_idle m a :
  _refreshPromise m = None ->
  run_sync (refreshAuthToken a) m =
  (leader (length (executions m)),
   {| _refreshPromise := Some (length (executions m));
      executions := executions m ++ [_doRefresh];
      callers := callers m |}).
Proof. intros H. unfold refreshAuthToken. simpl. rewrite H. reflexivity. Qed.

Lemma run_sync_call_busy m a p :
  _refreshPromise m = Some p ->
  run_sync (refreshAuthToken a) m = (joiner p, m).
Proof. intros H. unfold refreshAuthToken. simpl. rewrite H. reflexivity. Qed.

Lemma awaiting_leader p :
  exists k, awaiting (leader p) = Some (p, k)
    /\ forall o m, run_sync (k o) m =
         (Ret o, {| _refreshPromise := None;
                    executions := executions m;
                    callers := callers m |}).
Proof. eexists. split; reflexivity. Qed.

Lemma awaiting_joiner p :
  exists k, awaiting (joiner p) = Some (p, k)
    /\ forall o m, run_sync (k o) m =
         (Ret (match o with
               | Returned v => Returned v
               | Threw _ => Returned None
               end), m).
Proof. eexists. split; [reflexivity |]. by intros [v|err] m. Qed.

Lemma leader_not_joiner p q : leader p <> joiner q.
Proof.
  intros H. apply (f_equal awaiting) in H. simpl in H.
  injection H as _ H.
  apply (f_equal (fun k => pending (k (Threw (new_Error ""))))) in H.
  discriminate.
Qed.

Lemma leader_inj p q : leader p = leader q -> p = q.
Proof.
  intros H. apply (f_equal awaiting) in H. simpl in H. by injection H.
Qed.

Lemma joiner_inj p q : joiner p = joiner q -> p = q.
Proof.
  intros H. apply (f_equal awaiting) in H. simpl in H. by injection H.
Qed.

Lemma doRefresh_calls_collaborators_only : never is_internal _doRefresh.
Proof.
  unfold _doRefresh, try_catch, bind. cbn. split; [done |].
  intros [r|err]; cbn.
  1: destruct (has_token r); cbn; [after_refresh r |].
  all: split; [done |].
  all: intros [raw|err']; cbn; [|done].
  all: destruct (raw_falsy raw); cbn; [done |].
  all: destruct (parse_raw raw) as [parsed|err']; cbn; [|done].
  all: destruct (negb (truthy (opt_refresh_token parsed))); cbn; [done |].
  all: split; [done |].
  all: intros [setErr|err']; cbn; [|done].
  all: destruct (negb (absent setErr)); cbn; [done |].
  all: split; [done |].
  all: intros [r2|err']; cbn; [|done].
  all: destruct (has_token r2); cbn; [after_refresh r2 | done].
Qed.

Lemma doRefresh_never_throws : no_throw _doRefresh.
Proof.
  unfold _doRefresh, try_catch, bind. cbn.
  intros [r|err]; cbn.
  1: destruct (has_token r); cbn; [after_refresh r |].
  all: intros [raw|err']; cbn; [|done].
  all: destruct (raw_falsy raw); cbn; [done |].
  all: destruct (parse_raw raw) as [parsed|err']; cbn; [|done].
  all: destruct (negb (truthy (opt_refresh_token parsed))); cbn; [done |].
  all: intros [setErr|err']; cbn; [|done].
  all: destruct (negb (absent setErr)); cbn; [done |].
  all: intros [r2|err']; cbn; [|done].
  all: destruct (has_token r2); cbn; [after_refresh r2 | done].
Qed.

Lemma run_sync_quiet {R} (c : Prog R) m :
  never is_internal c -> run_sync c m = (c, m).
Proof.
  destruct c as [r | X e k]; [done |]. intros [He _]. simpl.
  unfold is_internal in He. simpl in He. apply negb_false_iff in He.
  by destruct e.
Qed.

Lemma step_call_idle m a :
  _refreshPromise m = None ->
  step m (CallRefreshAuthToken a) =
  Some {| _refreshPromise := Some (length (executions m));
          executions := executions m ++ [_doRefresh];
          callers := callers m ++ [leader (length (executions m))] |}.
Proof. intros H. unfold step. by rewrite run_sync_call_idle. Qed.

Lemma step_call_busy m a p :
  _refreshPromise m = Some p ->
  step m (CallRefreshAuthToken a) =
  Some {| _refreshPromise := Some p;
          executions := executions m;
          callers := callers m ++ [joiner p] |}.
Proof.
  intros H. unfold step. rewrite (run_sync_call_busy _ _ _ H).
  unfold with_callers. by rewrite H.
Qed.

Lemma settled_lookup m p o :
  settled m p = Some o <-> executions m !! p = Some (Ret o).
Proof.
  unfold settled. destruct (executions m !! p) as [[o'|X e k]|]; split;
    intros H; congruence.
Qed.

Lemma settled_lt m p o : settled m p = Some o -> (p < length (executions m))%nat.
Proof. intros H. apply settled_lookup in H. by apply lookup_lt_Some in H. Qed.

Lemma settled_same m m' p :
  executions m' = executions m -> settled m' p = settled m p.
Proof. unfold settled. by intros ->. Qed.

Lemma settled_app m m' p c :
  executions m' = executions m ++ [c] ->
  (p < length (executions m))%nat ->
  settled m' p = settled m p.
Proof. unfold settled. intros -> Hp. by rewrite lookup_app_l. Qed.

Lemma Inv_init : Inv init.
Proof.
  split; simpl.
  - intros p Hp. lia.
  - done.
  - intros i c Hi. by rewrite lookup_nil in Hi.
  - intros i j p q Hi. by rewrite lookup_nil in Hi.
  - intros p c Hp. by rewrite lookup_nil in Hp.
Qed.

Lemma Inv_call_busy m a p m' :
  Inv m -> _refreshPromise m = Some p ->
  step m (CallRefreshAuthToken a) = Some m' -> Inv m'.
Proof.
  intros I Hm Hs. rewrite (step_call_busy m a p Hm) in Hs.
  injection Hs as <-.
  destruct (inv_marker _ I p Hm) as [Hlt [l Hl]].
  split; simpl.
  - intros q Hq Hset. rewrite <- Hm. apply (inv_in_flight _ I q Hq).
    by rewrite <- Hset.
  - intros q [= <-]. split; [done |]. exists l. by apply lookup_app_l_Some.
  - intros i c Hi. apply lookup_app_Some in Hi as [Hi | [_ Hi]].
    + destruct (inv_callers _ I i c Hi) as [(q & -> & Hq) | [(q & -> & Hq) | (q & v & -> & Hq)]].
      * left. exists q. split; [done |]. by rewrite <- Hq, Hm.
      * right; left. by exists q.
      * right; right. by exists q, v.
    + apply list_lookup_singleton_Some in Hi as [_ <-].
      right; left. by exists p.
  - intros i j p1 q Hi Hj.
    apply lookup_app_Some in Hi as [Hi | [_ Hi]];
      apply lookup_app_Some in Hj as [Hj | [_ Hj]].
    + by apply (inv_leader _ I i j p1 q).
    + apply list_lookup_singleton_Some in Hj as [_ Hj].
      symmetry in Hj. by apply leader_not_joiner in Hj.
    + apply list_lookup_singleton_Some in Hi as [_ Hi].
      symmetry in Hi. by apply leader_not_joiner in Hi.
    + apply list_lookup_singleton_Some in Hj as [_ Hj].
      symmetry in Hj. by apply leader_not_joiner in Hj.
  - apply (inv_executions _ I).
Qed.

Lemma no_leader_when_idle m i p :
  Inv m -> _refreshPromise m = None -> callers m !! i <> Some (leader p).
Proof.
  intros I Hm Hi.
  destruct (inv_callers _ I i _ Hi) as [(q & _ & Hq) | [(q & E & _) | (q & v & E & _)]].
  - congruence.
  - by apply leader_not_joiner in E.
  - discriminate E.
Qed.

Lemma Inv_call_idle m a m' :
  Inv m -> _refreshPromise m = None ->
  step m (CallRefreshAuthToken a) = Some m' -> Inv m'.
Proof.
  intros I Hm Hs. rewrite (step_call_idle m a Hm) in Hs.
  injection Hs as <-.
  set (n := length (executions m)).
  split; simpl.
  - intros q Hq Hset. rewrite length_app in Hq. simpl in Hq.
    destruct (decide (q = n)) as [-> | Hne]; [done |].
    assert (q < n)%nat as Hlt by lia.
    unfold settled in Hset. simpl in Hset. rewrite lookup_app_l in Hset by done.
    pose proof (inv_in_flight _ I q Hlt Hset). congruence.
  - intros q [= <-]. split; [rewrite length_app; simpl; lia |].
    exists (length (callers m)).
    rewrite lookup_app_r by lia. by rewrite Nat.sub_diag.
  - intros i c Hi. apply lookup_app_Some in Hi as [Hi | [_ Hi]].
    + destruct (inv_callers _ I i c Hi) as [(q & -> & Hq) | [(q & -> & Hq) | (q & v & -> & Hq)]].
      * congruence.
      * right; left. exists q. split; [done |]. rewrite length_app. lia.
      * right; right. exists q, v. split; [done |].
        unfold settled. simpl. rewrite lookup_app_l; [done |].
        by apply settled_lt in Hq.
    + apply list_lookup_singleton_Some in Hi as [_ <-].
      left. by exists n.
  - intros i j p1 q Hi Hj.
    apply lookup_app_Some in Hi as [Hi | [Hi1 Hi]];
      apply lookup_app_Some in Hj as [Hj | [Hj1 Hj]].
    + by apply (inv_leader _ I i j p1 q).
    + by apply no_leader_when_idle in Hi.
    + by apply no_leader_when_idle in Hj.
    + apply lookup_lt_Some in Hi, Hj. simpl in Hi, Hj. lia.
  - intros q c Hq. apply lookup_app_Some in Hq as [Hq | [_ Hq]].
    + by apply (inv_executions _ I q).
    + apply list_lookup_singleton_Some in Hq as [_ <-].
      split; [apply doRefresh_calls_collaborators_only
             | apply doRefresh_never_throws].
Qed.

Lemma never_run_clock {R} f answer (c : Prog R) :
  never f c -> never f (run_clock answer c).
Proof.
  induction c as [r | X e k IH]; [done |]. intros [He Hk]. simpl.
  destruct (clock_answer answer e) as [x|]; [by apply IH | done].
Qed.

Lemma no_throw_run_clock {A} answer (c : M A) :
  no_throw c -> no_throw (run_clock answer c).
Proof.
  induction c as [r | X e k IH]; [done |]. intros Hk. simpl.
  destruct (clock_answer answer e) as [x|]; [by apply IH | done].
Qed.

Lemma step_settle_inv m p answer m' :
  Inv m -> step m (Settle p answer) = Some m' ->
  exists X (e : Ev X) k,
    executions m !! p = Some (Vis e k)
    /\ m' = with_executions m
              (<[p := run_clock answer (k (answer X e))]> (executions m)).
Proof.
  intros I Hs. unfold step in Hs.
  destruct (executions m !! p) as [[o | X e k]|] eqn:Hp; try discriminate.
  destruct (is_collaborator e); [|discriminate].
  destruct (inv_executions _ I p _ Hp) as [[_ Hq] _].
  rewrite (run_sync_quiet _ _ (never_run_clock _ answer _ (Hq (answer X e))))
    in Hs.
  injection Hs as <-. by exists X, e, k.
Qed.

Lemma Inv_settle m p answer m' :
  Inv m -> step m (Settle p answer) = Some m' -> Inv m'.
Proof.
  intros I Hs.
  destruct (step_settle_inv _ _ _ _ I Hs) as (X & e & k & Hp & ->).
  assert (settled m p = None) as Hpend by (unfold settled; by rewrite Hp).
  assert (forall q o, settled m q = Some o ->
            settled (with_executions m
                       (<[p := run_clock answer (k (answer X e))]>
                          (executions m))) q = Some o)
    as Hkeep.
  { intros q o Hq. unfold settled in *. simpl.
    destruct (decide (q = p)) as [-> | Hne]; [by rewrite Hp in Hq |].
    by rewrite list_lookup_insert_ne. }
  split; simpl.
  - intros q Hq Hset. rewrite length_insert in Hq.
    destruct (decide (q = p)) as [-> | Hne].
    + by apply (inv_in_flight _ I p).
    + apply (inv_in_flight _ I q Hq).
      unfold settled in *. simpl in Hset.
      by rewrite list_lookup_insert_ne in Hset.
  - intros q Hq. rewrite length_insert. by apply (inv_marker _ I).
  - intros i c Hi.
    destruct (inv_callers _ I i c Hi)
      as [(q & -> & Hq) | [(q & -> & Hq) | (q & v & -> & Hq)]].
    + left. by exists q.
    + right; left. exists q. by rewrite length_insert.
    + right; right. exists q, v. split; [done |]. by apply Hkeep.
  - apply (inv_leader _ I).
  - intros q c Hq.
    apply list_lookup_insert_Some in Hq as [(<- & <- & _) | [_ Hq]].
    + destruct (inv_executions _ I p _ Hp) as [[_ H1] H2].
      split; [apply never_run_clock, H1 | apply no_throw_run_clock, H2].
    + by apply (inv_executions _ I q).
Qed.

Lemma leader_holds m i p :
  Inv m -> callers m !! i = Some (leader p) -> _refreshPromise m = Some p.
Proof.
  intros I Hi.
  destruct (inv_callers _ I i _ Hi)
    as [(q & E & Hq) | [(q & E & _) | (q & v & E & _)]].
  - apply leader_inj in E. by subst.
  - by apply leader_not_joiner in E.
  - discriminate E.
Qed.

Lemma settled_returned m p o :
  Inv m -> settled m p = Some o -> exists v, o = Returned v.
Proof.
  intros I Hp. apply settled_lookup in Hp.
  destruct (inv_executions _ I p _ Hp) as [_ Hn].
  destruct o as [v|err]; [by exists v | done].
Qed.

Lemma step_resume_inv m i m' :
  Inv m -> step m (Resume i) = Some m' ->
  exists p v,
    settled m p = Some (Returned v)
    /\ ((callers m !! i = Some (leader p)
         /\ m' = {| _refreshPromise := None;
                    executions := executions m;
                    callers := <[i := Ret (Returned v)]> (callers m) |})
        \/ (callers m !! i = Some (joiner p)
            /\ m' = {| _refreshPromise := _refreshPromise m;
                       executions := executions m;
                       callers := <[i := Ret (Returned v)]> (callers m) |})).
Proof.
  intros I Hs. unfold step in Hs.
  destruct (callers m !! i) as [c|] eqn:Hi; [|discriminate].
  destruct (inv_callers _ I i c Hi)
    as [(q & -> & Hq) | [(q & -> & Hq) | (q & v & -> & Hq)]].
  - destruct (awaiting_leader q) as (k & Hk0 & Hk). rewrite Hk0 in Hs.
    destruct (settled m q) as [o|] eqn:Hset; [|discriminate].
    destruct (settled_returned _ _ _ I Hset) as [v ->].
    rewrite Hk in Hs. injection Hs as <-.
    exists q, v. split; [done |]. by left.
  - destruct (awaiting_joiner q) as (k & Hk0 & Hk). rewrite Hk0 in Hs.
    destruct (settled m q) as [o|] eqn:Hset; [|discriminate].
    destruct (settled_returned _ _ _ I Hset) as [v ->].
    rewrite Hk in Hs. injection Hs as <-.
    exists q, v. split; [done |]. by right.
  - discriminate.
Qed.

Lemma Inv_resume m i m' :
  Inv m -> step m (Resume i) = Some m' -> Inv m'.
Proof.
  intros I Hs.
  destruct (step_resume_inv _ _ _ I Hs) as (p & v & Hset & [[Hi ->] | [Hi ->]]).
  - pose proof (leader_holds _ _ _ I Hi) as Hm.
    split; simpl.
    + intros q Hq Hq'. pose proof (inv_in_flight _ I q Hq Hq') as E.
      rewrite Hm in E. injection E as <-.
      unfold settled in Hq'. simpl in Hq'. unfold settled in Hset. congruence.
    + done.
    + intros j c Hj.
      apply list_lookup_insert_Some in Hj as [(<- & <- & _) | [Hne Hj]].
      * right; right. by exists p, v.
      * destruct (inv_callers _ I j c Hj)
          as [(q & -> & Hq) | [(q & -> & Hq) | (q & v' & -> & Hq)]].
        -- by destruct (Hne (inv_leader _ I i j p q Hi Hj)).
        -- right; left. by exists q.
        -- right; right. by exists q, v'.
    + intros j1 j2 q1 q2 H1 H2.
      apply list_lookup_insert_Some in H1 as [(_ & E & _) | [_ H1]];
        [discriminate E |].
      apply list_lookup_insert_Some in H2 as [(_ & E & _) | [_ H2]];
        [discriminate E |].
      by apply (inv_leader _ I j1 j2 q1 q2).
    + apply (inv_executions _ I).
  - split; simpl.
    + apply (inv_in_flight _ I).
    + intros q Hq. destruct (inv_marker _ I q Hq) as [Hlt [l Hl]].
      split; [done |]. exists l.
      rewrite list_lookup_insert_ne; [done |].
      intros <-. assert (leader q = joiner p) as E by congruence.
      by apply leader_not_joiner in E.
    + intros j c Hj.
      apply list_lookup_insert_Some in Hj as [(<- & <- & _) | [Hne Hj]].
      * right; right. by exists p, v.
      * by apply (inv_callers _ I j c).
    + intros j1 j2 q1 q2 H1 H2.
      apply list_lookup_insert_Some in H1 as [(_ & E & _) | [_ H1]];
        [discriminate E |].
      apply list_lookup_insert_Some in H2 as [(_ & E & _) | [_ H2]];
        [discriminate E |].
      by apply (inv_leader _ I j1 j2 q1 q2).
    + apply (inv_executions _ I).
Qed.

Lemma Inv_step m l m' : Inv m -> step m l = Some m' -> Inv m'.
Proof.
  intros I Hs. destruct l as [a | p answer | i].
  - destruct (_refreshPromise m) as [p|] eqn:Hm.
    + by apply (Inv_call_busy m a p).
    + by apply (Inv_call_idle m a).
  - by apply (Inv_settle m p answer).
  - by apply (Inv_resume m i).
Qed.

Lemma Inv_run ls : forall m m', Inv m -> run m ls = Some m' -> Inv m'.
Proof.
  induction ls as [|l ls IH]; intros m m' I Hr; simpl in Hr.
  - by injection Hr as <-.
  - destruct (step m l) as [m1|] eqn:Hs; [|discriminate].
    apply (IH m1); [|done]. by apply (Inv_step m l).
Qed.

Lemma Inv_reachable ls m : run init ls = Some m -> Inv m.
Proof. apply Inv_run, Inv_init. Qed.

Lemma in_flight_spec m p :
  p ∈ in_flight m <-> (p < length (executions m))%nat /\ settled m p = None.
Proof.
  unfold in_flight. rewrite list_elem_of_filter, elem_of_seq. simpl.
  split; intros [H1 H2]; split; try done; lia.
Qed.

Lemma at_most_one_in_flight m : Inv m -> (length (in_flight m) <= 1)%nat.
Proof.
  intros I.
  assert (NoDup (in_flight m)) as Hnd
    by (unfold in_flight; apply NoDup_filter, NoDup_seq).
  assert (forall p, p ∈ in_flight m -> _refreshPromise m = Some p) as Hall.
  { intros p Hp. apply in_flight_spec in Hp as [H1 H2].
    by apply (inv_in_flight _ I). }
  destruct (in_flight m) as [|x [|y l]]; simpl; [lia | lia |].
  pose proof (Hall x ltac:(set_solver)) as Hx.
  pose proof (Hall y ltac:(set_solver)) as Hy.
  assert (x = y) as -> by congruence.
  apply NoDup_cons in Hnd as [Hnd _]. set_solver.
Qed.

Lemma tracks_step m l m' p i c :
  Inv m -> callers m !! i = Some c -> tracks m p c ->
  step m l = Some m' ->
  exists c', callers m' !! i = Some c' /\ tracks m' p c'.
Proof.
  intros I Hi Ht Hs. destruct l as [a | q answer | j].
  - exists c. destruct (_refreshPromise m) as [q|] eqn:Hm.
    + rewrite (step_call_busy m a q Hm) in Hs. injection Hs as <-. simpl.
      split; [by apply lookup_app_l_Some |]. exact Ht.
    + rewrite (step_call_idle m a Hm) in Hs. injection Hs as <-. simpl.
      split; [by apply lookup_app_l_Some |].
      destruct Ht as [-> | [-> | (v & -> & Hv)]]; [by left | by right; left |].
      right; right. exists v. split; [done |].
      unfold settled. simpl. rewrite lookup_app_l; [done |].
      by apply settled_lt in Hv.
  - destruct (step_settle_inv _ _ _ _ I Hs) as (X & e & k & Hq & ->).
    exists c. split; [done |].
    destruct Ht as [-> | [-> | (v & -> & Hv)]]; [by left | by right; left |].
    right; right. exists v. split; [done |].
    unfold settled in *. simpl.
    destruct (decide (p = q)) as [-> | Hne]; [by rewrite Hq in Hv |].
    by rewrite list_lookup_insert_ne.
  - destruct (step_resume_inv _ _ _ I Hs)
      as (q & v & Hset & [[Hj ->] | [Hj ->]]); simpl.
    all: destruct (decide (i = j)) as [-> | Hne];
      [| exists c; by rewrite list_lookup_insert_ne].
    all: exists (Ret (Returned v)).
    all: split; [apply list_lookup_insert_eq; by apply lookup_lt_Some in Hi |].
    all: right; right; exists v; split; [done |].
    all: rewrite Hi in Hj; injection Hj as Hj.
    all: destruct Ht as [-> | [-> | (v' & -> & _)]]; try discriminate Hj.
    + apply leader_inj in Hj. by subst.
    + symmetry in Hj. by apply leader_not_joiner in Hj.
    + by apply leader_not_joiner in Hj.
    + apply joiner_inj in Hj. by subst.
Qed.

Lemma tracks_run ls : forall m m' p i c,
  Inv m -> callers m !! i = Some c -> tracks m p c ->
  run m ls = Some m' ->
  exists c', callers m' !! i = Some c' /\ tracks m' p c'.
Proof.
  induction ls as [|l ls IH]; intros m m' p i c I Hi Ht Hr; simpl in Hr.
  - injection Hr as <-. by exists c.
  - destruct (step m l) as [m1|] eqn:Hs; [|discriminate].
    destruct (tracks_step _ _ _ _ _ _ I Hi Ht Hs) as (c1 & Hi1 & Ht1).
    apply (IH m1 m' p i c1); [|done..]. by apply (Inv_step m l).
Qed.

Lemma tracks_observed m p i c o :
  callers m !! i = Some c -> tracks m p c -> observed m i = Some o ->
  settled m p = Some o.
Proof.
  intros Hi Ht Ho. unfold observed in Ho. rewrite Hi in Ho.
  destruct Ht as [-> | [-> | (v & -> & Hv)]]; [discriminate.. |].
  by injection Ho as <-.
Qed.

Lemma run_calls_busy args : forall m p,
  _refreshPromise m = Some p ->
  run m (simultaneous_calls args) =
  Some {| _refreshPromise := Some p;
          executions := executions m;
          callers := callers m ++ map (fun _ => joiner p) args |}.
Proof.
  unfold simultaneous_calls.
  induction args as [|a args IH]; intros m p Hm; cbn [map run].
  - rewrite app_nil_r. destruct m; simpl in *. by subst.
  - rewrite (step_call_busy m a p Hm).
    rewrite (IH {| _refreshPromise := Some p;
                   executions := executions m;
                   callers := callers m ++ [joiner p] |} p eq_refl).
    simpl. by rewrite <- app_assoc.
Qed.

Lemma run_calls_idle m a args :
  _refreshPromise m = None ->
  run m (simultaneous_calls (a :: args)) =
  Some {| _refreshPromise := Some (length (executions m));
          executions := executions m ++ [_doRefresh];
          callers := callers m ++
            leader (length (executions m))
            :: map (fun _ => joiner (length (executions m))) args |}.
Proof.
  intros Hm. unfold simultaneous_calls. cbn [map run].
  rewrite (step_call_idle m a Hm).
  fold (simultaneous_calls args).
  rewrite (run_calls_busy args
             {| _refreshPromise := Some (length (executions m));
                executions := executions m ++ [_doRefresh];
                callers := callers m ++ [leader (length (executions m))] |}
             (length (executions m)) eq_refl).
  simpl.
  by rewrite <- app_assoc.
Qed.

Lemma joins_in_flight m p a :
  Inv m -> p ∈ in_flight m ->
  exists m', step m (CallRefreshAuthToken a) = Some m'
    /\ executions m' = executions m
    /\ callers m' = callers m ++ [joiner p]
    /\ awaited (joiner p) = Some p.
Proof.
  intros I Hp. apply in_flight_spec in Hp as [H1 H2].
  pose proof (inv_in_flight _ I p H1 H2) as Hm.
  eexists. split; [apply (step_call_busy m a p Hm) |]. done.
Qed.

Lemma in_flight_can_settle m p answer :
  Inv m -> p ∈ in_flight m -> exists m', step m (Settle p answer) = Some m'.
Proof.
  intros I Hp. apply in_flight_spec in Hp as [Hlt Hpend].
  destruct (lookup_lt_is_Some_2 (executions m) p Hlt) as [c Hc].
  unfold settled in Hpend. rewrite Hc in Hpend.
  destruct c as [o | X e k]; [discriminate |].
  destruct (inv_executions _ I p _ Hc) as [[He Hk] _].
  unfold is_internal in He. simpl in He. apply negb_false_iff in He.
  unfold step. rewrite Hc, He.
  rewrite (run_sync_quiet _ _ (never_run_clock _ answer _ (Hk (answer X e)))).
  by eexists.
Qed.

Lemma tracked_can_finish m p i c o :
  Inv m -> callers m !! i = Some c -> tracks m p c ->
  settled m p = Some o ->
  observed m i = Some o
  \/ exists m', step m (Resume i) = Some m' /\ observed m' i = Some o.
Proof.
  intros I Hi Ht Ho.
  destruct (settled_returned _ _ _ I Ho) as [v ->].
  assert (i < length (callers m))%nat as Hlt by (by apply lookup_lt_Some in Hi).
  destruct Ht as [-> | [-> | (v' & -> & Hv)]].
  - right. destruct (awaiting_leader p) as (k & Hk0 & Hk).
    eexists. unfold step. rewrite Hi, Hk0, Ho, Hk. split; [done |].
    unfold observed. simpl. by rewrite list_lookup_insert_eq.
  - right. destruct (awaiting_joiner p) as (k & Hk0 & Hk).
    eexists. unfold step. rewrite Hi, Hk0, Ho, Hk. split; [done |].
    unfold observed. simpl. by rewrite list_lookup_insert_eq.
  - left. unfold observed. rewrite Hi. congruence.
Qed.

Lemma simultaneous_calls_collapse m a args :
  Inv m -> _refreshPromise m = None ->
  let n := length (executions m) in
  let base := length (callers m) in
  exists m',
    run m (simultaneous_calls (a :: args)) = Some m'
    /\ length (executions m') = S n
    /\ (forall p, p ∈ in_flight m' <-> p = n)
    /\ (forall j, (j < S (length args))%nat ->
         exists c, callers m' !! (base + j)%nat = Some c /\ awaited c = Some n)
    /\ (forall ls m'',
         run m' ls = Some m'' ->
         forall j o, (j < S (length args))%nat ->
           (observed m'' (base + j)%nat = Some o -> settled m'' n = Some o)
           /\ (settled m'' n = Some o ->
               observed m'' (base + j)%nat = Some o
               \/ exists m3, step m'' (Resume (base + j)) = Some m3
                    /\ observed m3 (base + j)%nat = Some o)).
Proof.
  intros I Hm n base. eexists. split; [apply (run_calls_idle m a args Hm) |].
  set (m' := {| _refreshPromise := Some n;
                executions := executions m ++ [_doRefresh];
                callers := callers m ++ leader n :: map (fun _ => joiner n) args |}).
  assert (Inv m') as I'.
  { apply (Inv_run (simultaneous_calls (a :: args)) m); [done |].
    apply (run_calls_idle m a args Hm). }
  assert (forall j, (j < S (length args))%nat ->
            exists c, callers m' !! (base + j)%nat = Some c
                      /\ (c = leader n \/ c = joiner n)) as Hnew.
  { intros j Hj. simpl. rewrite lookup_app_r by (unfold base; lia).
    replace (base + j - length (callers m))%nat with j by (unfold base; lia).
    destruct j as [|j]; simpl; [by eexists; split; [|left] |].
    assert (j < length args)%nat as Hj' by lia.
    rewrite list_lookup_fmap.
    destruct (lookup_lt_is_Some_2 args j Hj') as [x ->]. simpl.
    eexists; split; [done | by right]. }
  split; [simpl; rewrite length_app; simpl; fold n; lia |].
  split; [| split].
  - intros p. rewrite in_flight_spec. simpl. rewrite length_app. simpl.
    fold n. split.
    + intros [H1 H2].
      destruct (decide (p = n)) as [-> | Hne]; [done |].
      assert (p < n)%nat as Hlt by lia.
      unfold settled in H2. simpl in H2. rewrite lookup_app_l in H2 by done.
      pose proof (inv_in_flight _ I p Hlt H2). congruence.
    + intros ->. split; [lia |]. unfold settled. simpl.
      rewrite lookup_app_r by (fold n; lia). fold n.
      by rewrite Nat.sub_diag.
  - intros j Hj. destruct (Hnew j Hj) as (c & Hc & [E | E]);
      exists c; (split; [exact Hc | by rewrite E]).
  - intros ls m'' Hr j o Hj.
    destruct (Hnew j Hj) as (c & Hc & Hrole).
    assert (tracks m' n c) as Ht
      by (destruct Hrole as [-> | ->]; [by left | by right; left]).
    destruct (tracks_run ls m' m'' n _ c I' Hc Ht Hr) as (c' & Hc' & Ht').
    split.
    + by apply (tracks_observed m'' n (base + j)%nat c' o).
    + apply (tracked_can_finish m'' n (base + j)%nat c' o); [|done..].
      by apply (Inv_run ls m').
Qed.

Lemma marker_cleared_on_settle m p :
  Inv m -> _refreshPromise m = Some p ->
  exists i, callers m !! i = Some (leader p)
    /\ forall o, settled m p = Some o ->
        exists m', step m (Resume i) = Some m'
          /\ _refreshPromise m' = None
          /\ observed m' i = Some o.
Proof.
  intros I Hm. destruct (inv_marker _ I p Hm) as [Hlt [i Hi]].
  exists i. split; [done |]. intros o Ho.
  destruct (awaiting_leader p) as (k & Hk0 & Hk).
  eexists. unfold step. rewrite Hi, Hk0, Ho, Hk. split; [done |]. simpl.
  split; [done |]. unfold observed. simpl.
  rewrite list_lookup_insert_eq; [done |]. by apply lookup_lt_Some in Hi.
Qed.

(** C1. In every state the machine can reach, at most one execution of
    [_doRefresh] is in flight.  A call of [refreshAuthToken] made while
    one is in flight starts no execution and awaits the promise of the
    one in flight.  When no refresh is under way, any number of calls
    made at once start exactly one execution, all of them await its
    promise, and whatever happens next, each of these calls that
    finishes has observed the outcome of that one execution: the same
    token, or the same failure, for all; and once that execution has
    settled, each of them has finished or can be resumed and then
    finishes with its outcome.  An execution in flight can always take
    the next answer of the collaborator it awaits.  Whenever [_refreshPromise]
    holds a promise, the call that started its execution is still
    waiting, and once the execution has settled, with a token or
    without, resuming that call sets [_refreshPromise] back to [null]. *)
Theorem refresh_mutex (ls : list Label) (m : Machine) :
  run init ls = Some m ->
  (length (in_flight m) <= 1)%nat
  /\ (forall p answer,
      p ∈ in_flight m -> exists m', step m (Settle p answer) = Some m')
  /\ (forall p a,
      p ∈ in_flight m ->
      exists m', step m (CallRefreshAuthToken a) = Some m'
        /\ executions m' = executions m
        /\ callers m' = callers m ++ [joiner p]
        /\ awaited (joiner p) = Some p)
  /\ (_refreshPromise m = None ->
      forall a args,
      let n := length (executions m) in
      let base := length (callers m) in
      exists m',
        run m (simultaneous_calls (a :: args)) = Some m'
        /\ length (executions m') = S n
        /\ (forall p, p ∈ in_flight m' <-> p = n)
        /\ (forall j, (j < S (length args))%nat ->
             exists c, callers m' !! (base + j)%nat = Some c
                       /\ awaited c = Some n)
        /\ (forall ls' m'',
             run m' ls' = Some m'' ->
             forall j o, (j < S (length args))%nat ->
               (observed m'' (base + j)%nat = Some o -> settled m'' n = Some o)
               /\ (settled m'' n = Some o ->
                   observed m'' (base + j)%nat = Some o
                   \/ exists m3, step m'' (Resume (base + j)) = Some m3
                        /\ observed m3 (base + j)%nat = Some o)))
  /\ (forall p,
      _refreshPromise m = Some p ->
      exists i, callers m !! i = Some (leader p)
        /\ forall o, settled m p = Some o ->
            exists m', step m (Resume i) = Some m'
              /\ _refreshPromise m' = None
              /\ observed m' i = Some o).
Proof.
  intros Hr. pose proof (Inv_reachable ls m Hr) as I.
  split; [by apply at_most_one_in_flight |].
  split; [intros p answer Hp; by apply in_flight_can_settle |].
  split; [intros p a Hp; by apply joins_in_flight |].
  split; [intros Hm a args; by apply simultaneous_calls_collapse |].
  intros p Hm. by apply marker_cleared_on_settle.
Qed.
End Mutex.

(** ** The unused parameter of [refreshAuthToken] *)

Lemma step_forget_argument m l : step m (forget_argument l) = step m l.
Proof. by destruct l. Qed.

Lemma run_forget_argument ls : forall m, run m (map forget_argument ls) = run m ls.
Proof.
  induction ls as [|l ls IH]; intros m; [done |].
  cbn [map run]. rewrite step_forget_argument.
  destruct (step m l); [apply IH | done].
Qed.

Lemma refreshAuthToken_passes_no_token a :
  never passes_refresh_token (refreshAuthToken a).
Proof.
  unfold refreshAuthToken. simpl. split; [done |]. intros [p|]; simpl.
  - split; [done |]. by intros [v|err].
  - split; [done |]. intros p. simpl. split; [done |]. intros _. simpl.
    split; [done |]. intros o. simpl. split; done.
Qed.

Lemma doRefresh_passes_no_token : never passes_refresh_token _doRefresh.
Proof.
  unfold _doRefresh, try_catch, bind. cbn. split; [done |].
  intros [r|err]; cbn.
  1: destruct (has_token r); cbn; [after_refresh r |].
  all: split; [done |].
  all: intros [raw|err']; cbn; [|done].
  all: destruct (raw_falsy raw); cbn; [done |].
  all: destruct (parse_raw raw) as [parsed|err']; cbn; [|done].
  all: destruct (negb (truthy (opt_refresh_token parsed))); cbn; [done |].
  all: split; [done |].
  all: intros [setErr|err']; cbn; [|done].
  all: destruct (negb (absent setErr)); cbn; [done |].
  all: split; [done |].
  all: intros [r2|err']; cbn; [|done].
  all: destruct (has_token r2); cbn; [after_refresh r2 | done].
Qed.

(** C10. The argument of [refreshAuthToken] is never read.  Two calls
    that differ only in it are the same program: they behave alike in
    every world, they take the machine to the same state, and a whole run
    is unchanged when the arguments of its calls are forgotten.  Neither
    [refreshAuthToken] nor [_doRefresh] ever hands a refresh token to the
    identity client's refresh, which therefore works from the session the
    client holds (the one installed from the durable store, in the rescue
    path). *)
Theorem refreshAuthToken_argument_unused (a b : option string) :
  refreshAuthToken a = refreshAuthToken b
  /\ (forall W (h : forall X, Ev X -> W -> X * W) (w : W),
        exec h (refreshAuthToken a) w = exec h (refreshAuthToken b) w)
  /\ (forall m, step m (CallRefreshAuthToken a) = step m (CallRefreshAuthToken b))
  /\ (forall m ls, run m (map forget_argument ls) = run m ls)
  /\ never passes_refresh_token (refreshAuthToken a)
  /\ never passes_refresh_token _doRefresh.
Proof.
  split; [reflexivity |]. split; [reflexivity |]. split; [reflexivity |].
  split; [intros m ls; apply run_forget_argument |].
  split; [apply refreshAuthToken_passes_no_token
         | apply doRefresh_passes_no_token].
Qed.

(** ** The clock-skew tolerance *)

(** C6 does not hold of the code.  A session that expired 30 seconds ago,
    which is inside the 60 seconds of [CLOCK_SKEW_TOLERANCE_S], is not
    accepted once the refresh has failed: [forceRefreshToken] throws
    REFRESH_FAILED and [getAuthToken] returns [null].  Both compare the
    time left with 0, not with -60. *)
Theorem expired_within_tolerance_is_rejected :
  let w := setMockToken 1700000000000 (-30) (refresh_error "Server error") in
  ttl_at (opt_expires_at (mock_session w)) (mock_now w) = -30
  /\ - CLOCK_SKEW_TOLERANCE_S < -30
  /\ result mock_world (forceRefreshToken false) w = Threw REFRESH_FAILED_error
  /\ result mock_world (forceRefreshToken true) w = Threw REFRESH_FAILED_error
  /\ result mock_world getAuthToken w = Returned None.
Proof. repeat split; vm_compute; reflexivity. Qed.

(** ** The session-ready gate *)

Section Gate.
Context {K : Type}.


Lemma markSessionReady_fulfils (g : Gate K) : sessionReady (markSessionReady g) = Fulfilled.
Proof. unfold markSessionReady, _resolve. by destruct g as [[] r j]. Qed.

Lemma gate_step_latched (g : Gate K) (op : GateOp K) :
  sessionReady g = Fulfilled -> sessionReady (gate_step g op) = Fulfilled.
Proof.
  intros H. destruct op as [| k |]; simpl.
  - unfold markSessionReady, _resolve. by rewrite H.
  - unfold awaitSessionReady. by rewrite H.
  - done.
Qed.

Lemma gate_run_latched (ops : list (GateOp K)) : forall g : Gate K,
  sessionReady g = Fulfilled -> sessionReady (gate_run g ops) = Fulfilled.
Proof.
  unfold gate_run. induction ops as [|op ops IH]; intros g H; [done |].
  simpl. by apply IH, gate_step_latched.
Qed.

Lemma gate_run_app (g : Gate K) (ops1 ops2 : list (GateOp K)) :
  gate_run g (ops1 ++ ops2) = gate_run (gate_run g ops1) ops2.
Proof. unfold gate_run. apply fold_left_app. Qed.

End Gate.

(** ** The theorems at work on the test scenarios *)

(** Scenario A: 1200 seconds left, the current token, no refresh. *)
Lemma forceRefreshToken_ttl_check_witness :
  exec mock_world (forceRefreshToken false) scenario_A =
    (Returned (Some "mock-jwt-token"), scenario_A,
     [call GetSession; call DateNow])
  /\ count is_refresh_activity
       (trace mock_world (forceRefreshToken false) scenario_A) = 0%nat.
Proof.
  destruct (forceRefreshToken_ttl_check mock_world scenario_A) as [H _].
  apply (H {| data_session := mock_session scenario_A; error := None |}
           scenario_A test_now scenario_A).
  - reflexivity.
  - reflexivity.
  - reflexivity.
  - vm_compute. intros E. discriminate E.
Defined.

(** Scenario D: 120 seconds left and the refresh fails, the current token
    is returned. *)
Lemma forceRefreshToken_fallback_witness :
  result mock_world (forceRefreshToken false) scenario_D =
    Returned (Some "mock-jwt-token").
Proof.
  assert (result mock_world (ttl_check false) scenario_D = Returned None) as Hcheck
    by (vm_compute; reflexivity).
  assert (result mock_world (refreshAuthToken None)
            (final mock_world (ttl_check false) scenario_D) = Returned None)
    as Hfresh by (vm_compute; reflexivity).
  destruct (@forceRefreshToken_fallback Mock mock_world false scenario_D None
              Hcheck Hfresh eq_refl) as [H _].
  apply (H {| data_session := mock_session scenario_D; error := None |}
           scenario_D 1700000120 test_now scenario_D).
  - vm_compute. reflexivity.
  - reflexivity.
  - reflexivity.
  - intros E. discriminate E.
  - vm_compute. reflexivity.
  - vm_compute. reflexivity.
Defined.

(** 30 seconds left and the refresh fails: [getAuthToken] returns the
    current token. *)
Lemma getAuthToken_cases_witness :
  result mock_world getAuthToken scenario_near_expiry =
    Returned (Some "mock-jwt-token").
Proof.
  destruct (getAuthToken_cases mock_world scenario_near_expiry) as (_ & _ & H).
  destruct (H {| data_session := mock_session scenario_near_expiry;
                 error := None |}
              scenario_near_expiry test_now scenario_near_expiry
              eq_refl eq_refl eq_refl eq_refl) as [_ H2].
  destruct H2 as [_ H3].
  - vm_compute. intros E. discriminate E.
  - destruct (H3 None) as (_ & H4 & _).
    + vm_compute. reflexivity.
    + apply H4; [reflexivity | vm_compute; reflexivity].
Defined.

(** The identity client has lost its session, the durable store has it:
    the primary refresh fails, the stored session is installed, the
    retried refresh succeeds. *)
Lemma doRefresh_two_tiers_witness :
  fst (exec mock_world _doRefresh scenario_rescue)
  = (Returned (Some "rescued-token"),
     mock_with_session scenario_rescue
       (Some {| access_token := Some "rescued-token";
                refresh_token := Some "new-refresh-token";
                expires_at := Some 1700003600 |}))
  /\ snd (exec mock_world _doRefresh scenario_rescue)
     = [call (RefreshSession None); call (StorageGet "fitly-auth-token");
        call (SetSession (Some "stored-access") (Some "stored-refresh"));
        call (RefreshSession None); call DateNow].
Proof.
  destruct (@doRefresh_two_tiers Mock mock_world scenario_rescue
              (refresh_error "Auth session missing") scenario_rescue eq_refl)
    as [_ H].
  destruct (H eq_refl (Returned (mock_storage scenario_rescue)) scenario_rescue
              eq_refl) as [_ H2].
  destruct (H2 {| stored_access_token := Some "stored-access";
                  stored_refresh_token := Some "stored-refresh" |} eq_refl
              (Returned None)
              (mock_with_session scenario_rescue
                 (Some {| access_token := Some "stored-access";
                          refresh_token := Some "stored-refresh";
                          expires_at := None |}))
              eq_refl) as [_ H3].
  destruct (H3 eq_refl (refresh_ok "rescued-token" 1700003600)
              (mock_with_session scenario_rescue
                 (Some {| access_token := Some "rescued-token";
                          refresh_token := Some "new-refresh-token";
                          expires_at := Some 1700003600 |}))
              eq_refl) as [H4 _].
  rewrite H4. split; reflexivity.
Defined.

(** A 401, a refresh that yields a new token, one more request. *)
Lemma makeAuthenticatedRequest_flow_witness :
  let w := scenario_401 (refresh_ok "new-fresh-token" 1700003600) in
  let request := makeAuthenticatedRequest "https://api.example/items" no_options in
  result mock_world request w = Returned {| status := 200; body := "ok" |}
  /\ count is_fetch (trace mock_world request w) = 2%nat
  /\ carries_bearer no_options "mock-jwt-token"
       (with_bearer no_options "mock-jwt-token")
  /\ carries_bearer no_options "new-fresh-token"
       (with_bearer no_options "new-fresh-token").
Proof.
  intros w request.
  destruct (makeAuthenticatedRequest_flow mock_world
              "https://api.example/items" no_options w) as [_ H].
  destruct (H "mock-jwt-token"
              (Returned {| status := 401; body := "JWT expired" |})
              (mock_with_responses w [Returned {| status := 200; body := "ok" |}]))
    as (Hfirst & _ & _ & H3).
  - vm_compute. reflexivity.
  - intros E. discriminate E.
  - reflexivity.
  - destruct (H3 {| status := 401; body := "JWT expired" |} "new-fresh-token")
      as (E & Hretry & _ & Hcount).
    + reflexivity.
    + reflexivity.
    + vm_compute. reflexivity.
    + intros E. discriminate E.
    + split; [| split; [exact Hcount | split; [exact Hfirst | exact Hretry]]].
      unfold result, request. rewrite E. reflexivity.
Defined.

(** A 401 and a refresh that yields nothing: the 401 response comes
    back, after one request. *)
Lemma makeAuthenticatedRequest_401_without_token_witness :
  let w := scenario_401 (refresh_error "Invalid refresh token") in
  let request := makeAuthenticatedRequest "https://api.example/items" no_options in
  result mock_world request w = Returned {| status := 401; body := "JWT expired" |}
  /\ count is_fetch (trace mock_world request w) = 1%nat.
Proof.
  intros w request.
  destruct (@makeAuthenticatedRequest_401_without_token Mock mock_world
              "https://api.example/items" no_options w "mock-jwt-token"
              {| status := 401; body := "JWT expired" |}
              (mock_with_responses w [Returned {| status := 200; body := "ok" |}])
              None) as [E Hcount].
  - vm_compute. reflexivity.
  - intros E. discriminate E.
  - reflexivity.
  - reflexivity.
  - vm_compute. reflexivity.
  - reflexivity.
  - split; [| exact Hcount]. unfold result, request. rewrite E. reflexivity.
Defined.

(** Two calls at once: one execution, one outcome for both, and the
    marker cleared at the end. *)
Example two_callers_share_one_refresh :
  match run init two_callers with
  | Some m =>
    length (executions m) = 1%nat
    /\ observed m 0%nat = Some (Returned (Some "new-fresh-token"))
    /\ observed m 1%nat = Some (Returned (Some "new-fresh-token"))
    /\ _refreshPromise m = None
  | None => False
  end.
Proof. vm_compute. repeat split. Qed.

Lemma refresh_mutex_witness :
  run init (take 2 two_callers) = Some after_two_calls
  /\ (length (in_flight after_two_calls) <= 1)%nat.
Proof.
  split; [reflexivity |].
  exact (proj1 (refresh_mutex (take 2 two_callers) after_two_calls eq_refl)).
Defined.


(** ** The rest of the token manager *)

Set Implicit Arguments.

Section StaticAnalysis.
Context {W : Type} (h : forall X, Ev X -> W -> X * W).

Lemma always_result {R} (P : R -> Prop) (c : Prog R) w :
  always P c -> P (result h c w).
Proof.
  revert w. induction c as [r | X e k IH]; intros w Hc; [done |].
  rewrite result_vis. apply IH, Hc.
Qed.

Lemma always_prog_bind {A B} (P : B -> Prop) (c : Prog A) (k : A -> Prog B) :
  always (fun a => always P (k a)) c -> always P (prog_bind c k).
Proof.
  induction c as [r | X e k' IH]; simpl; [done |].
  intros Hc x. apply IH, Hc.
Qed.

Lemma always_mono {R} (P Q : R -> Prop) (c : Prog R) :
  (forall r, P r -> Q r) -> always P c -> always Q c.
Proof.
  intros HPQ. induction c as [r | X e k IH]; simpl; [apply HPQ |].
  intros Hc x. apply IH, Hc.
Qed.

Lemma always_true {R} (P : R -> Prop) (c : Prog R) :
  (forall r, P r) -> always P c.
Proof. intros HP. induction c as [r | X e k IH]; simpl; auto. Qed.

Lemma every_trace {R} (P : Call -> Prop) (c : Prog R) w :
  every P c -> Forall P (trace h c w).
Proof.
  revert w. induction c as [r | X e k IH]; intros w Hc.
  - constructor.
  - destruct Hc as [He Hk]. rewrite trace_vis. constructor; [done |].
    apply IH, Hk.
Qed.

Lemma every_prog_bind {A B} (P : Call -> Prop) (c : Prog A) (k : A -> Prog B) :
  every P c -> (forall a, every P (k a)) -> every P (prog_bind c k).
Proof.
  induction c as [r | X e k' IH]; simpl; [auto |].
  intros [He Hk] Hf. split; [done |]. intros x. by apply IH.
Qed.

Lemma never_every {R} f (P : Call -> Prop) (c : Prog R) :
  (forall x, f x = false -> P x) -> never f c -> every P c.
Proof.
  intros HfP. induction c as [r | X e k IH]; simpl; [done |].
  intros [He Hk]. split; [by apply HfP |]. intros x. apply IH, Hk.
Qed.

Lemma at_most_count {R} f n (c : Prog R) w :
  at_most f n c -> (count f (trace h c w) <= n)%nat.
Proof.
  revert n w. induction c as [r | X e k IH]; intros n w Hc.
  - unfold trace, count. simpl. lia.
  - rewrite trace_vis. unfold count in *. rewrite filter_cons. simpl in Hc.
    destruct (f (call e)) eqn:He.
    + destruct n as [|n]; [done |].
      destruct (decide _) as [_ | E]; [| congruence]. simpl.
      specialize (IH (fst (h e w)) n (snd (h e w)) (Hc (fst (h e w)))). lia.
    + destruct (decide _) as [E | _]; [congruence |]. apply IH, Hc.
Qed.

Lemma at_most_mono {R} f n n' (c : Prog R) :
  (n <= n')%nat -> at_most f n c -> at_most f n' c.
Proof.
  revert n n'. induction c as [r | X e k IH]; intros n n' Hn; simpl; [done |].
  destruct (f (call e)).
  - destruct n as [|n]; [done |]. destruct n' as [|n']; [lia |].
    intros Hc x. apply (IH x n n'); [lia | apply Hc].
  - intros Hc x. apply (IH x n n'); [lia | apply Hc].
Qed.

Lemma at_most_prog_bind {A B} f n n' (c : Prog A) (k : A -> Prog B) :
  at_most f n c -> (forall a, at_most f n' (k a)) ->
  at_most f (n + n') (prog_bind c k).
Proof.
  revert n. induction c as [r | X e k' IH]; intros n; simpl.
  - intros _ Hk. apply at_most_mono with n'; [lia | apply Hk].
  - destruct (f (call e)).
    + destruct n as [|n]; [done |]. simpl. intros Hc Hk x. by apply IH.
    + intros Hc Hk x. by apply IH.
Qed.

Lemma never_at_most {R} f n (c : Prog R) : never f c -> at_most f n c.
Proof.
  induction c as [r | X e k IH]; simpl; [done |].
  intros [He Hk]. rewrite He. intros x. apply IH, Hk.
Qed.
End StaticAnalysis.

Section SessionChecks.
Context {W : Type} (h : forall X, Ev X -> W -> X * W).

(** One run of [restoreSupabaseSession]. *)
Lemma restoreSupabaseSession_exec (w : W) :
  exec h restoreSupabaseSession w =
    (Returned match fst (h GetSession w) with
              | Returned r => has_token r
              | Threw _ => false
              end,
     world_after_log h (fst (h GetSession w)) (snd (h GetSession w)),
     call GetSession :: log_calls (fst (h GetSession w))).
Proof.
  unfold restoreSupabaseSession, try_catch, bind.
  unfold world_after_log, log_calls, logs_ttl, has_token, ttl_for_log. simpl.
  destruct (h GetSession w) as [[r|err] w1]; simpl; [| done].
  destruct (error r) as [e|]; simpl; [done |].
  destruct (truthy _); simpl; [| done].
  destruct (opt_expires_at (data_session r)) as [x|]; simpl; [| done].
  destruct (Z.eqb x 0); simpl; [done |].
  by destruct (h DateNow w1).
Qed.

Lemma has_token_spec r :
  has_token r = true <->
  error r = None /\ truthy (opt_access_token (data_session r)) = true.
Proof.
  unfold has_token. rewrite andb_true_iff.
  destruct (error r); simpl; split; intros [H1 H2]; done.
Qed.

(** X1. [restoreSupabaseSession] reads the session once.  The only
    other call it makes is one read of the clock, for the TTL it logs,
    made exactly when the session read came back without an error, with
    an access token and with a truthy [expires_at] ([log_calls]).  It
    never throws, and it returns [true] exactly when [getSession] came
    back without an error and with a session that has an access token. *)
Theorem restoreSupabaseSession_reads_once (w : W) :
  let o := fst (h GetSession w) in
  trace h restoreSupabaseSession w = call GetSession :: log_calls o
  /\ final h restoreSupabaseSession w
     = world_after_log h o (snd (h GetSession w))
  /\ (exists b, result h restoreSupabaseSession w = Returned b)
  /\ (result h restoreSupabaseSession w = Returned true <->
      exists r, o = Returned r
                /\ error r = None
                /\ truthy (opt_access_token (data_session r)) = true)
  /\ (log_calls o = [call DateNow] <->
      exists r x, o = Returned r
                  /\ error r = None
                  /\ truthy (opt_access_token (data_session r)) = true
                  /\ opt_expires_at (data_session r) = Some x /\ x <> 0)
  /\ (log_calls o = [] \/ log_calls o = [call DateNow]).
Proof.
  intros o. unfold trace, final, result.
  rewrite restoreSupabaseSession_exec. fold o. cbn [fst snd].
  split; [done |]. split; [done |]. split; [by eexists |]. split; [| split].
  - destruct o as [r|err].
    + split.
      * intros [= Hr]. exists r. split; [done |]. by apply has_token_spec.
      * intros (r' & [= <-] & Hr). f_equal. by apply has_token_spec.
    + split; [done | by intros (r & ? & _)].
  - unfold log_calls, logs_ttl. destruct o as [r|err].
    + destruct (has_token r) eqn:Hr; cbn [andb].
      * apply has_token_spec in Hr as [He Htok].
        destruct (opt_expires_at (data_session r)) as [x|] eqn:Hx.
        -- destruct (Z.eqb x 0) eqn:Hz; cbn [negb].
           ++ split; [done |]. intros (r' & x' & [= <-] & _ & _ & Hx' & Hne).
              apply Z.eqb_eq in Hz. congruence.
           ++ split; [| done]. intros _. exists r, x.
              repeat split; try done. by apply Z.eqb_neq.
        -- split; [done |]. intros (r' & x' & [= <-] & _ & _ & Hx' & _).
           congruence.
      * split; [done |]. intros (r' & x' & [= <-] & He & Htok & _).
        assert (has_token r = true) by (by apply has_token_spec). congruence.
    + split; [done |]. by intros (r & x & ? & _).
  - unfold log_calls. destruct (logs_ttl o); [by right | by left].
Qed.

(** X2. [updateCachedAuthState] never throws and always leaves a boolean
    in [_cachedAuthState], after one read of the session.  After it,
    [isDemoModeSync] answers [false] exactly when [DEMO_MODE_OVERRIDE] is
    off and the session read had an access token.  The flag does not look
    at the error [getSession] reports: on an answer with both an error and
    a token, [restoreSupabaseSession] says [false] while the flag says
    authenticated. *)
Theorem updateCachedAuthState_sets_flag (w : W) (DEMO_MODE_OVERRIDE : bool) :
  exists authenticated,
    exec h updateCachedAuthState w =
      (Returned (Some authenticated), snd (h GetSession w), [call GetSession])
    /\ (isDemoModeSync DEMO_MODE_OVERRIDE (Some authenticated) = false <->
        DEMO_MODE_OVERRIDE = false
        /\ exists r, fst (h GetSession w) = Returned r
                     /\ truthy (opt_access_token (data_session r)) = true)
    /\ (result h restoreSupabaseSession w = Returned true ->
        authenticated = true)
    /\ (forall r, fst (h GetSession w) = Returned r ->
          error r <> None ->
          truthy (opt_access_token (data_session r)) = true ->
          authenticated = true
          /\ result h restoreSupabaseSession w = Returned false).
Proof.
  unfold result, restoreSupabaseSession, updateCachedAuthState, try_catch, bind;
    simpl.
  destruct (h GetSession w) as [[r|err] w1]; simpl.
  - exists (truthy (opt_access_token (data_session r))).
    split; [done |]. split; [| split].
    + unfold isDemoModeSync. destruct DEMO_MODE_OVERRIDE; simpl.
      * split; [done | by intros [? _]].
      * rewrite negb_false_iff. split.
        -- intros Htok. split; [done |]. by exists r.
        -- by intros (_ & r' & [= <-] & Htok).
    + destruct (error r); simpl; [done |].
      by destruct (truthy _).
    + intros r' [= <-] Herr Htok. split; [done |].
      destruct (error r); [done | congruence].
  - exists false. split; [done |]. split; [| split].
    + unfold isDemoModeSync. destruct DEMO_MODE_OVERRIDE; simpl.
      * split; [done | by intros [? _]].
      * split; [done | by intros (_ & r & E & _)].
    + done.
    + by intros r E.
Qed.

Lemma isDemoMode_override w :
  exec h (isDemoMode true) w = (Returned true, w, []).
Proof. reflexivity. Qed.

(** What [isDemoMode] does without the override, by the answer to its
    read of the session. *)
Lemma isDemoMode_exec w :
  exec h (isDemoMode false) w =
  match h GetSession w with
  | (Returned r, w1) =>
    if truthy (opt_access_token (data_session r)) then
      let '(now, w2) := h DateNow w1 in
      if now <? expiresAtMs (opt_expires_at (data_session r))
      then (Returned false, w2, [call GetSession; call DateNow])
      else
        (match result h getAuthToken w2 with
         | Returned refreshed => Returned (negb (truthy refreshed))
         | Threw _ => Returned true
         end,
         final h getAuthToken w2,
         [call GetSession; call DateNow] ++ trace h getAuthToken w2)
    else (Returned true, w1, [call GetSession])
  | (Threw _, w1) => (Returned true, w1, [call GetSession])
  end.
Proof.
  unfold isDemoMode, try_catch, bind.
  cbn [exec prog_bind await perform].
  destruct (h GetSession w) as [[r|err] w1]; [| reflexivity].
  cbn [prog_bind].
  destruct (truthy (opt_access_token (data_session r))); [| reflexivity].
  cbn [exec prog_bind await perform].
  destruct (h DateNow w1) as [now w2].
  destruct (now <? _); [reflexivity |].
  cbn [exec prog_bind await perform].
  rewrite !exec_prog_bind, (exec_eta h getAuthToken w2).
  destruct (result h getAuthToken w2) as [refreshed|err]; simpl.
  - destruct (truthy refreshed); simpl; by rewrite !app_nil_r.
  - by rewrite !app_nil_r.
Qed.

(** X3. [isDemoMode] never throws.  With [DEMO_MODE_OVERRIDE] it answers
    [true] without calling anything.  Without it, it answers [false]
    exactly when the session read has an access token and either that
    token has not expired yet or [getAuthToken] then yields a token; in
    the first case nothing is called after the clock, so no refresh
    happens. *)
Theorem isDemoMode_cases (DEMO_MODE_OVERRIDE : bool) (w : W) :
  (exists b, result h (isDemoMode DEMO_MODE_OVERRIDE) w = Returned b)
  /\ (DEMO_MODE_OVERRIDE = true ->
      exec h (isDemoMode DEMO_MODE_OVERRIDE) w = (Returned true, w, []))
  /\ (result h (isDemoMode DEMO_MODE_OVERRIDE) w = Returned false <->
      DEMO_MODE_OVERRIDE = false
      /\ exists r w1 now w2,
           h GetSession w = (Returned r, w1)
           /\ truthy (opt_access_token (data_session r)) = true
           /\ h DateNow w1 = (now, w2)
           /\ (now < expiresAtMs (opt_expires_at (data_session r))
               \/ exists token,
                    result h getAuthToken w2 = Returned token
                    /\ truthy token = true))
  /\ (forall r w1 now w2,
        DEMO_MODE_OVERRIDE = false ->
        h GetSession w = (Returned r, w1) ->
        truthy (opt_access_token (data_session r)) = true ->
        h DateNow w1 = (now, w2) ->
        now < expiresAtMs (opt_expires_at (data_session r)) ->
        exec h (isDemoMode DEMO_MODE_OVERRIDE) w =
          (Returned false, w2, [call GetSession; call DateNow])).
Proof.
  destruct DEMO_MODE_OVERRIDE.
  - split; [by exists true |]. split; [done |]. split; [| done].
    split; [done | by intros [? _]].
  - unfold result. rewrite isDemoMode_exec.
    destruct (h GetSession w) as [[r|err] w1] eqn:Hs.
    2: { split; [by eexists |]. split; [done |]. split; [| done].
         split; [done |]. by intros (_ & r & w1' & now & w2 & E & _). }
    destruct (truthy (opt_access_token (data_session r))) eqn:Htok.
    2: { split; [by eexists |]. split; [done |]. split.
         - split; [done |].
           intros (_ & r' & w1' & now & w2 & [= <- <-] & E & _). congruence.
         - intros r' w1' now w2 _ [= <- <-] E. congruence. }
    destruct (h DateNow w1) as [now w2] eqn:Hnow.
    destruct (now <? expiresAtMs (opt_expires_at (data_session r))) eqn:Hexp.
    + apply Z.ltb_lt in Hexp.
      split; [by eexists |]. split; [done |]. split.
      * split; [| done]. intros _. split; [done |].
        exists r, w1, now, w2. repeat split; try done. by left.
      * intros r' w1' now' w2' _ [= <- <-] _ Hn _.
        rewrite Hnow in Hn. by injection Hn as <- <-.
    + apply Z.ltb_ge in Hexp. cbn [fst].
      destruct (result h getAuthToken w2) as [refreshed|err] eqn:Hget;
        unfold result in Hget.
      * split; [by eexists |]. split; [done |]. split.
        -- split.
           ++ intros [= E]. apply negb_false_iff in E. split; [done |].
              exists r, w1, now, w2. repeat split; try done.
              right. by exists refreshed.
           ++ intros (_ & r' & w1' & now' & w2' & [= <- <-] & _ & Hn & Hor).
              rewrite Hnow in Hn. injection Hn as <- <-.
              destruct Hor as [Hlt | (token & Ht & Htruthy)]; [lia |].
              rewrite Hget in Ht. injection Ht as <-. by rewrite Htruthy.
        -- intros r' w1' now' w2' _ [= <- <-] _ Hn Hlt.
           rewrite Hnow in Hn. injection Hn as <- <-. lia.
      * split; [by eexists |]. split; [done |]. split.
        -- split; [done |].
           intros (_ & r' & w1' & now' & w2' & [= <- <-] & _ & Hn & Hor).
           rewrite Hnow in Hn. injection Hn as <- <-.
           destruct Hor as [Hlt | (token & Ht & _)]; [lia |].
           rewrite Hget in Ht. discriminate.
        -- intros r' w1' now' w2' _ [= <- <-] _ Hn Hlt.
           rewrite Hnow in Hn. injection Hn as <- <-. lia.
Qed.
End SessionChecks.

(** ** What the token functions hand back *)

Lemma doRefresh_null_or_token : always null_or_token _doRefresh.
Proof.
  unfold _doRefresh, try_catch, bind. cbn.
  intros [r|err]; cbn.
  1: destruct (has_token r) eqn:Hr; cbn;
    [unfold has_token in Hr; apply andb_true_iff in Hr as [_ ?];
     unfold ttl_for_log;
     destruct (opt_expires_at (data_session r)) as [x|];
     [destruct (Z.eqb x 0) |]; cbn; try intros now; by right |].
  all: intros [raw|err']; cbn; [| by left].
  all: destruct (raw_falsy raw); cbn; [by left |].
  all: destruct (parse_raw raw) as [parsed|err']; cbn; [| by left].
  all: destruct (negb (truthy (opt_refresh_token parsed))); cbn; [by left |].
  all: intros [setErr|err']; cbn; [| by left].
  all: destruct (negb (absent setErr)); cbn; [by left |].
  all: intros [r2|err']; cbn; [| by left].
  all: destruct (has_token r2) eqn:Hr2; cbn; [| by left].
  all: unfold has_token in Hr2; apply andb_true_iff in Hr2 as [_ ?].
  all: unfold ttl_for_log.
  all: destruct (opt_expires_at (data_session r2)) as [x|];
    [destruct (Z.eqb x 0) |]; cbn; try intros now; by right.
Qed.

Lemma getAuthToken_null_or_token : always null_or_token getAuthToken.
Proof.
  unfold getAuthToken, try_catch. apply always_prog_bind.
  unfold bind. cbn. intros [r|err]; cbn; [| by left].
  destruct (negb (absent (error r))); cbn; [by left |].
  destruct (negb (truthy (opt_access_token (data_session r)))) eqn:Htok;
    cbn; [by left |].
  apply negb_false_iff in Htok. intros now.
  destruct (_ <=? _); cbn; [| by right].
  apply always_prog_bind, always_true. intros [fresh|err]; cbn; [| by left].
  destruct (truthy fresh) eqn:Hfresh; cbn; [by right |].
  destruct (0 <? _); cbn; [by right | by left].
Qed.

Lemma forceRefreshToken_token_or_throw b :
  always token_or_throw (forceRefreshToken b).
Proof.
  unfold forceRefreshToken, bind. apply always_prog_bind.
  assert (always (fun o : Outcome (option (option string)) =>
                    match o with
                    | Returned (Some v) => truthy v = true
                    | _ => True
                    end) (ttl_check b)) as Hcheck.
  { unfold ttl_check, try_catch, bind. destruct b; cbn; [done |].
    intros [r|err]; cbn; [| done].
    destruct (truthy (opt_access_token (data_session r))) eqn:Htok; cbn; [| done].
    intros now. by destruct (900 <=? _). }
  eapply always_mono; [| exact Hcheck].
  intros [[v|]|err]; cbn; [done | | done]. intros _.
  apply always_prog_bind, always_true. intros [fresh|err]; cbn; [| done].
  destruct (truthy fresh) eqn:Hfresh; cbn; [done |].
  unfold fallback_or_fail, try_catch, bind. cbn.
  intros [r|err]; cbn; [| done].
  destruct (truthy (opt_access_token (data_session r))) eqn:Htok; cbn; [| done].
  destruct (opt_expires_at (data_session r)) as [x|]; cbn; [| done].
  destruct (x =? 0); cbn; [done |].
  intros now. by destruct (0 <? _).
Qed.

Section TokenShape.
Context {W : Type} (h : forall X, Ev X -> W -> X * W).

(** X4. Whatever the collaborators answer or throw, [_doRefresh] and
    [getAuthToken] return [null] or a string that is not empty and never
    throw, and [forceRefreshToken] either throws or returns a string that
    is not empty: no caller is ever handed an empty or missing token as
    if it were one. *)
Theorem tokens_are_never_empty (w : W) (bypassTTL : bool) :
  null_or_token (result h _doRefresh w)
  /\ null_or_token (result h getAuthToken w)
  /\ token_or_throw (result h (forceRefreshToken bypassTTL) w).
Proof.
  split; [apply always_result, doRefresh_null_or_token |].
  split; [apply always_result, getAuthToken_null_or_token |].
  apply always_result, forceRefreshToken_token_or_throw.
Qed.
End TokenShape.

(** ** How much a call can do *)

Lemma refreshAuthToken_at_most_once a :
  at_most is_refreshAuthToken 1 (refreshAuthToken a).
Proof.
  unfold refreshAuthToken. cbn. intros [p|]; cbn.
  - by intros [v|err].
  - intros p _ o. by cbn.
Qed.

Lemma getAuthToken_at_most_one_refresh :
  at_most is_refreshAuthToken 1 getAuthToken.
Proof.
  unfold getAuthToken, try_catch.
  apply (at_most_prog_bind is_refreshAuthToken 1 0); [| by intros [v|err]].
  unfold bind. cbn. intros [r|err]; cbn; [| done].
  destruct (negb (absent (error r))); cbn; [done |].
  destruct (negb (truthy _)); cbn; [done |].
  intros now. destruct (_ <=? _); cbn; [| done].
  apply (at_most_prog_bind is_refreshAuthToken 1 0);
    [apply refreshAuthToken_at_most_once |].
  intros [fresh|err]; cbn; [| done].
  destruct (truthy fresh); cbn; [done |]. by destruct (0 <? _).
Qed.

Arguments fallback_or_fail : simpl never.
Arguments on_response : simpl never.

Lemma fallback_or_fail_never_refreshes :
  never is_refreshAuthToken fallback_or_fail.
Proof.
  unfold fallback_or_fail, try_catch, bind. cbn. split; [done |].
  intros [r|err]; cbn; [| done].
  destruct (truthy _); cbn; [| done].
  destruct (opt_expires_at _) as [x|]; cbn; [| done].
  destruct (x =? 0); cbn; [done |].
  split; [done |]. intros now. by destruct (0 <? _).
Qed.

Lemma forceRefreshToken_at_most_one_refresh b :
  at_most is_refreshAuthToken 1 (forceRefreshToken b).
Proof.
  unfold forceRefreshToken, bind.
  apply (at_most_prog_bind is_refreshAuthToken 0 1).
  - unfold ttl_check, try_catch, bind. destruct b; cbn; [done |].
    intros [r|err]; cbn; [| done].
    destruct (truthy _); cbn; [| done].
    intros now. by destruct (900 <=? _).
  - intros [[v|]|err]; cbn; [done | | done].
    apply (at_most_prog_bind is_refreshAuthToken 1 0);
      [apply refreshAuthToken_at_most_once |].
    intros [fresh|err]; cbn; [| done].
    destruct (truthy fresh); cbn; [done |].
    apply never_at_most, fallback_or_fail_never_refreshes.
Qed.

Lemma on_response_at_most url options response :
  at_most is_refreshAuthToken 1 (on_response url options response)
  /\ at_most is_fetch 1 (on_response url options response).
Proof.
  unfold on_response, bind. destruct (_ =? 401); [| done]. split.
  - apply (at_most_prog_bind is_refreshAuthToken 1 0);
      [apply refreshAuthToken_at_most_once |].
    intros [newToken|err]; cbn; [| done].
    destruct (truthy newToken); cbn; [| done]. by intros o.
  - apply (at_most_prog_bind is_fetch 0 1);
      [apply never_at_most, refreshAuthToken_never_fetches |].
    intros [newToken|err]; cbn; [| done].
    destruct (truthy newToken); cbn; [| done]. by intros o.
Qed.

Lemma makeAuthenticatedRequest_at_most url options :
  at_most is_refreshAuthToken 2 (makeAuthenticatedRequest url options)
  /\ at_most is_fetch 2 (makeAuthenticatedRequest url options).
Proof.
  unfold makeAuthenticatedRequest, bind. split.
  - apply (at_most_prog_bind is_refreshAuthToken 1 1);
      [apply getAuthToken_at_most_one_refresh |].
    intros [token|err]; cbn; [| done].
    destruct (negb (truthy token)); cbn; [done |].
    intros [response|err]; cbn; [| done].
    apply on_response_at_most.
  - apply (at_most_prog_bind is_fetch 0 2);
      [apply never_at_most, getAuthToken_never_fetches |].
    intros [token|err]; cbn; [| done].
    destruct (negb (truthy token)); cbn; [done |].
    intros [response|err]; cbn; [| done].
    apply on_response_at_most.
Qed.

Section BoundedWork.
Context {W : Type} (h : forall X, Ev X -> W -> X * W).

(** X5. No function of the token manager loops: in every world, one call
    of [getAuthToken], of [forceRefreshToken] or of [checkAndRefreshToken]
    calls [refreshAuthToken] at most once, and one call of
    [makeAuthenticatedRequest] calls it at most twice (once to get the
    token, once after a 401) and makes at most two requests. *)
Theorem calls_are_bounded (w : W) (bypassTTL : bool)
    (url : string) (options : RequestInit) :
  (count is_refreshAuthToken (trace h getAuthToken w) <= 1)%nat
  /\ (count is_refreshAuthToken (trace h (forceRefreshToken bypassTTL) w) <= 1)%nat
  /\ (count is_refreshAuthToken (trace h checkAndRefreshToken w) <= 1)%nat
  /\ (count is_refreshAuthToken
        (trace h (makeAuthenticatedRequest url options) w) <= 2)%nat
  /\ (count is_fetch (trace h (makeAuthenticatedRequest url options) w) <= 2)%nat.
Proof.
  split; [apply at_most_count, getAuthToken_at_most_one_refresh |].
  split; [apply at_most_count, forceRefreshToken_at_most_one_refresh |].
  split.
  { apply at_most_count. unfold checkAndRefreshToken, try_catch, bind.
    apply (at_most_prog_bind is_refreshAuthToken 1 0); [| by intros [v|err]].
    apply (at_most_prog_bind is_refreshAuthToken 1 0);
      [apply getAuthToken_at_most_one_refresh | by intros [v|err]]. }
  split; apply at_most_count, makeAuthenticatedRequest_at_most.
Qed.
End BoundedWork.

(** ** The requests of [makeAuthenticatedRequest] *)

Lemma truthy_token_string v :
  truthy v = true -> v = Some (token_string v) /\ token_string v <> "".
Proof.
  destruct v as [s|]; [| done]. simpl. intros H. split; [done |].
  apply negb_true_iff in H. by apply String.eqb_neq in H.
Qed.

Lemma with_bearer_well_formed url options token :
  token <> "" ->
  well_formed_request url options (call (Fetch url (with_bearer options token))).
Proof.
  intros Ht. unfold well_formed_request, with_bearer. simpl.
  split; [done |]. split; [| split; [| split]].
  - exists token. split; [done |].
    rewrite lookup_insert_ne by done. by rewrite lookup_insert_eq.
  - by rewrite lookup_insert_eq.
  - intros name H1 H2. by rewrite !lookup_insert_ne.
  - done.
Qed.

Lemma not_fetch_well_formed url options c :
  is_fetch c = false -> well_formed_request url options c.
Proof. destruct c as [X e]. by destruct e. Qed.

Lemma makeAuthenticatedRequest_every_request url options :
  every (well_formed_request url options) (makeAuthenticatedRequest url options).
Proof.
  unfold makeAuthenticatedRequest, bind. apply every_prog_bind.
  { apply never_every with is_fetch;
      [apply not_fetch_well_formed | apply getAuthToken_never_fetches]. }
  intros [token|err]; cbn; [| done].
  destruct (negb (truthy token)) eqn:Htok; cbn; [done |].
  apply negb_false_iff, truthy_token_string in Htok as [_ Htok].
  split; [by apply with_bearer_well_formed |].
  intros [response|err]; cbn; [| done].
  unfold on_response, bind. destruct (_ =? 401); [| done].
  apply every_prog_bind.
  { apply never_every with is_fetch;
      [apply not_fetch_well_formed | apply refreshAuthToken_never_fetches]. }
  intros [newToken|err]; cbn; [| done].
  destruct (truthy newToken) eqn:Hnew; cbn; [| done].
  apply truthy_token_string in Hnew as [_ Hnew].
  split; [by apply with_bearer_well_formed | done].
Qed.

Section Requests.
Context {W : Type} (h : forall X, Ev X -> W -> X * W).

(** X6. Every request [makeAuthenticatedRequest(url, options)] makes, the
    first one and the retry alike, goes to [url] and carries
    [Authorization: Bearer <token>] with a token that is not empty and
    [Content-Type: application/json]; these two replace whatever the
    caller put under these names, and the caller's other headers and
    options are passed on unchanged. *)
Theorem requests_carry_bearer_token (url : string) (options : RequestInit)
    (w : W) :
  Forall (well_formed_request url options)
    (trace h (makeAuthenticatedRequest url options) w).
Proof. apply every_trace, makeAuthenticatedRequest_every_request. Qed.
End Requests.

(** ** The refresh itself *)

Section Refresh.
Context {W : Type} (h : forall X, Ev X -> W -> X * W).

(** X7. When the TTL check lets [forceRefreshToken] through and
    [refreshAuthToken] yields a token, that token is the result, and the
    call ends there: the session is not read again. *)
Theorem forceRefreshToken_refreshed (b : bool) (w : W) (fresh : option string) :
  result h (ttl_check b) w = Returned None ->
  result h (refreshAuthToken None) (final h (ttl_check b) w) = Returned fresh ->
  truthy fresh = true ->
  exec h (forceRefreshToken b) w =
    (Returned fresh,
     final h (refreshAuthToken None) (final h (ttl_check b) w),
     trace h (ttl_check b) w
       ++ trace h (refreshAuthToken None) (final h (ttl_check b) w)).
Proof.
  intros Hcheck Hfresh Htruthy. unfold forceRefreshToken.
  rewrite exec_bind, Hcheck.
  set (w1 := final h (ttl_check b) w) in *.
  set (rest := bind (refreshAuthToken None) _).
  change (result h rest w1) with (fst (fst (exec h rest w1))).
  change (final h rest w1) with (snd (fst (exec h rest w1))).
  change (trace h rest w1) with (snd (exec h rest w1)).
  unfold rest. rewrite exec_bind, Hfresh, Htruthy. cbn [fst snd].
  unfold ret. by rewrite result_ret, final_ret, trace_ret, app_nil_r.
Qed.

Lemma doRefresh_every_call_allowed : every allowed_in_doRefresh _doRefresh.
Proof.
  unfold _doRefresh, try_catch, bind. cbn. split; [done |].
  intros [r|err]; cbn.
  1: destruct (has_token r); cbn; [after_refresh r |].
  all: split; [done |].
  all: intros [raw|err']; cbn; [| done].
  all: destruct (raw_falsy raw); cbn; [done |].
  all: destruct (parse_raw raw) as [parsed|err']; cbn; [| done].
  all: destruct (negb (truthy (opt_refresh_token parsed))) eqn:Hrt; cbn;
    [done |].
  all: apply negb_false_iff in Hrt.
  all: split; [done |].
  all: intros [setErr|err']; cbn; [| done].
  all: destruct (negb (absent setErr)); cbn; [done |].
  all: split; [done |].
  all: intros [r2|err']; cbn; [| done].
  all: destruct (has_token r2); cbn; [after_refresh r2 | done].
Qed.

Lemma doRefresh_at_most_one_rescue :
  at_most is_storageGet 1 _doRefresh
  /\ at_most is_setSession 1 _doRefresh
  /\ at_most is_dateNow 1 _doRefresh.
Proof.
  unfold _doRefresh, try_catch, bind. split; [| split]; cbn.
  all: intros [r|err]; cbn.
  all: try (destruct (has_token r); cbn; [after_refresh r |]).
  all: intros [raw|err']; cbn; [| done].
  all: destruct (raw_falsy raw); cbn; [done |].
  all: destruct (parse_raw raw) as [parsed|err']; cbn; [| done].
  all: destruct (negb (truthy (opt_refresh_token parsed))); cbn; [done |].
  all: intros [setErr|err']; cbn; [| done].
  all: destruct (negb (absent setErr)); cbn; [done |].
  all: intros [r2|err']; cbn; [| done].
  all: destruct (has_token r2); cbn; [after_refresh r2 | done].
Qed.

(** X8. All [_doRefresh] ever calls is the identity client's refresh
    (without argument), [chrome.storage.local.get] for the key
    "fitly-auth-token", [setSession] with a refresh token that is not
    empty, and [Date.now]; it reads the store at most once, calls
    [setSession] at most once and reads the clock at most once.  In
    particular it never installs a session without a refresh token and
    never reads another key. *)
Theorem doRefresh_calls (w : W) :
  Forall allowed_in_doRefresh (trace h _doRefresh w)
  /\ (count is_storageGet (trace h _doRefresh w) <= 1)%nat
  /\ (count is_setSession (trace h _doRefresh w) <= 1)%nat
  /\ (count is_dateNow (trace h _doRefresh w) <= 1)%nat.
Proof.
  split; [apply every_trace, doRefresh_every_call_allowed |].
  split; [| split]; apply at_most_count, doRefresh_at_most_one_rescue.
Qed.
End Refresh.

(** ** More on the refresh mutex *)

Unset Implicit Arguments.

Lemma always_run_clock {R} (P : R -> Prop) answer (c : Prog R) :
  always P c -> always P (run_clock answer c).
Proof.
  induction c as [r | X e k IH]; [done |]. intros Hk. simpl.
  destruct (clock_answer answer e) as [x|]; [by apply IH | done].
Qed.

Lemma shape_step m l m' :
  Inv m ->
  (forall p c, executions m !! p = Some c -> always null_or_token c) ->
  step m l = Some m' ->
  forall p c, executions m' !! p = Some c -> always null_or_token c.
Proof.
  intros I Hshape Hs. destruct l as [a | q answer | i].
  - destruct (_refreshPromise m) as [q|] eqn:Hm.
    + rewrite (step_call_busy m a q Hm) in Hs. by injection Hs as <-.
    + rewrite (step_call_idle m a Hm) in Hs. injection Hs as <-. simpl.
      intros p c Hp. apply lookup_app_Some in Hp as [Hp | [_ Hp]].
      * by apply (Hshape p).
      * apply list_lookup_singleton_Some in Hp as [_ <-].
        apply doRefresh_null_or_token.
  - destruct (step_settle_inv _ _ _ _ I Hs) as (X & e & k & Hq & ->). simpl.
    intros p c Hp.
    apply list_lookup_insert_Some in Hp as [(<- & <- & _) | [_ Hp]].
    + apply always_run_clock, (Hshape q _ Hq).
    + by apply (Hshape p).
  - destruct (step_resume_inv _ _ _ I Hs)
      as (q & v & _ & [[_ ->] | [_ ->]]); exact Hshape.
Qed.

Lemma shape_run ls : forall m m',
  Inv m ->
  (forall p c, executions m !! p = Some c -> always null_or_token c) ->
  run m ls = Some m' ->
  forall p c, executions m' !! p = Some c -> always null_or_token c.
Proof.
  induction ls as [|l ls IH]; intros m m' I Hshape Hr; simpl in Hr.
  - by injection Hr as <-.
  - destruct (step m l) as [m1|] eqn:Hs; [| discriminate].
    apply (IH m1 m'); [by apply (Inv_step m l) | | done].
    by apply (shape_step m l m1).
Qed.

(** X9. Under any interleaving, [refreshAuthToken] never rejects and
    never yields an empty string: every execution of [_doRefresh] that has
    settled, and every call of [refreshAuthToken] that has finished, has
    produced [null] or a token that is not empty.  So the unguarded
    [await refreshAuthToken()] of [forceRefreshToken] and of
    [makeAuthenticatedRequest] cannot throw. *)
Theorem refreshAuthToken_never_rejects (ls : list Label) (m : Machine) :
  run init ls = Some m ->
  (forall p o, settled m p = Some o -> null_or_token o)
  /\ (forall i o, observed m i = Some o -> null_or_token o).
Proof.
  intros Hr. pose proof (Inv_reachable ls m Hr) as I.
  assert (forall p o, settled m p = Some o -> null_or_token o) as Hset.
  { intros p o Ho. apply settled_lookup in Ho.
    apply (shape_run ls init m Inv_init) in Ho; [exact Ho | | done].
    intros q c Hq. simpl in Hq. by rewrite lookup_nil in Hq. }
  split; [exact Hset |].
  intros i o Ho. unfold observed in Ho.
  destruct (callers m !! i) as [c|] eqn:Hi; [| discriminate].
  destruct (inv_callers _ I i c Hi)
    as [(q & -> & _) | [(q & -> & _) | (q & v & -> & Hq)]];
    [discriminate.. |].
  injection Ho as <-. by apply (Hset q).
Qed.

(** X10. A call that arrives after the execution has settled but before
    the call that started it has resumed (the marker still holds the
    settled promise) starts nothing: it joins the settled promise and,
    once resumed, returns the very outcome of that execution. *)
Theorem late_caller_gets_settled_outcome (ls : list Label) (m : Machine)
    (p : nat) (o : Outcome (option string)) (a : option string) :
  run init ls = Some m ->
  _refreshPromise m = Some p ->
  settled m p = Some o ->
  exists m1 m2,
    step m (CallRefreshAuthToken a) = Some m1
    /\ step m1 (Resume (length (callers m))) = Some m2
    /\ executions m2 = executions m
    /\ observed m2 (length (callers m)) = Some o.
Proof.
  intros Hr Hm Ho. pose proof (Inv_reachable ls m Hr) as I.
  destruct (settled_returned _ _ _ I Ho) as [v ->].
  eexists. eexists. split; [apply (step_call_busy m a p Hm) |].
  unfold step. simpl.
  rewrite lookup_app_r by lia. rewrite Nat.sub_diag. simpl.
  change (settled _ p) with (settled m p). rewrite Ho. simpl.
  split; [done |]. split; [done |]. unfold observed. simpl.
  rewrite list_lookup_insert_eq; [done |]. rewrite length_app. simpl. lia.
Qed.

(** X11. The outcome of a refresh is not kept: once the call that started
    an execution has resumed on its outcome, success or failure alike,
    nothing is in flight, and the next call of [refreshAuthToken] starts
    a new execution of [_doRefresh] instead of returning the old
    outcome. *)
Theorem refresh_restarts_after_settlement (ls : list Label) (m : Machine)
    (p : nat) (o : Outcome (option string)) (a : option string) :
  run init ls = Some m ->
  _refreshPromise m = Some p ->
  settled m p = Some o ->
  exists i m1 m2,
    callers m !! i = Some (leader p)
    /\ step m (Resume i) = Some m1
    /\ in_flight m1 = []
    /\ step m1 (CallRefreshAuthToken a) = Some m2
    /\ length (executions m2) = S (length (executions m))
    /\ _refreshPromise m2 = Some (length (executions m))
    /\ (forall q, q ∈ in_flight m2 <-> q = length (executions m)).
Proof.
  intros Hr Hm Ho. pose proof (Inv_reachable ls m Hr) as I.
  destruct (marker_cleared_on_settle m p I Hm) as (i & Hi & Hres).
  destruct (Hres o Ho) as (m1 & Hs1 & Hm1 & _).
  pose proof (Inv_step m (Resume i) m1 I Hs1) as I1.
  destruct (step_resume_inv _ _ _ I Hs1) as (q & v & _ & [[_ E] | [_ E]]).
  2: { rewrite E in Hm1. simpl in Hm1. congruence. }
  assert (executions m1 = executions m) as He by (by rewrite E).
  assert (in_flight m1 = []) as Hidle.
  { destruct (in_flight m1) as [|x l] eqn:Hl; [done |].
    assert (x ∈ in_flight m1) as Hx by (rewrite Hl; set_solver).
    apply in_flight_spec in Hx as [H1 H2].
    pose proof (inv_in_flight _ I1 x H1 H2). congruence. }
  exists i, m1. eexists. split; [done |]. split; [done |]. split; [done |].
  split; [apply (step_call_idle m1 a Hm1) |]. simpl. rewrite He.
  split; [rewrite length_app; simpl; lia |]. split; [done |].
  intros x. rewrite in_flight_spec. simpl. rewrite ?He, length_app. simpl.
  split.
  - intros [H1 H2].
    destruct (decide (x = length (executions m))) as [-> | Hne]; [done |].
    assert (x < length (executions m))%nat as Hlt by lia.
    unfold settled in H2. simpl in H2. rewrite ?He in H2.
    rewrite lookup_app_l in H2 by done.
    assert (x ∈ in_flight m1) as Hx.
    { apply in_flight_spec. rewrite He. split; [done |].
      unfold settled. by rewrite He. }
    rewrite Hidle in Hx. set_solver.
  - intros ->. split; [lia |]. unfold settled. simpl. rewrite ?He.
    rewrite lookup_app_r by lia. by rewrite Nat.sub_diag.
Qed.

(** ** More on the session-ready gate *)

Section GateInvariants.
Context {K : Type}.

Lemma awaiters_app (ops1 ops2 : list (GateOp K)) :
  awaiters (ops1 ++ ops2) = awaiters ops1 ++ awaiters ops2.
Proof.
  induction ops1 as [|[| k |] ops1 IH]; simpl; [done | done | | done].
  by rewrite IH.
Qed.

Lemma gate_run_snoc (g : Gate K) (ops : list (GateOp K)) (op : GateOp K) :
  gate_run g (ops ++ [op]) = gate_step (gate_run g ops) op.
Proof. by rewrite gate_run_app. Qed.

Lemma gate_reachable (ops : list (GateOp K)) :
  let g := gate_run new_gate ops in
  match sessionReady g with
  | Pending => jobs g = [] /\ reactions g = awaiters ops
  | Fulfilled => reactions g = []
  end.
Proof.
  induction ops as [|op ops IH] using rev_ind; [done |].
  cbn zeta in *. rewrite gate_run_snoc, awaiters_app.
  destruct (gate_run new_gate ops) as [[] rs js]; simpl in *.
  - destruct IH as [-> ->]. destruct op as [| k |]; simpl; [done | | ].
    + done.
    + by rewrite app_nil_r.
  - subst rs. by destruct op.
Qed.

Lemma gate_unmarked (ops : list (GateOp K)) :
  ~ In MarkSessionReady ops ->
  gate_run new_gate ops =
    {| sessionReady := Pending; reactions := awaiters ops; jobs := [] |}.
Proof.
  induction ops as [|op ops IH] using rev_ind; [done |].
  intros Hn. rewrite gate_run_snoc, awaiters_app, IH.
  - destruct op as [| k |]; simpl.
    + exfalso. apply Hn, in_or_app. right. by left.
    + done.
    + by rewrite app_nil_r.
  - intros Hin. apply Hn, in_or_app. by left.
Qed.

Lemma gate_marked (ops : list (GateOp K)) :
  In MarkSessionReady ops -> sessionReady (gate_run new_gate ops) = Fulfilled.
Proof.
  intros Hin. apply in_split in Hin as (ops1 & ops2 & ->).
  rewrite gate_run_app. simpl. unfold gate_run at 1. simpl.
  apply gate_run_latched, markSessionReady_fulfils.
Qed.

(** X12. Starting from the gate as the module creates it, whatever is
    done with it: as long as [markSessionReady] has not been called the
    promise is pending and no continuation awaiting [sessionReady] has
    been released to run (the job queue is empty and every awaiter is
    parked, in order of arrival); once it has been called the promise is
    fulfilled and nobody is left parked. *)
Theorem gate_holds_until_ready (ops : list (GateOp K)) :
  (~ In MarkSessionReady ops ->
   gate_run new_gate ops =
     {| sessionReady := Pending; reactions := awaiters ops; jobs := [] |})
  /\ (In MarkSessionReady ops ->
      sessionReady (gate_run new_gate ops) = Fulfilled
      /\ reactions (gate_run new_gate ops) = []).
Proof.
  split; [apply gate_unmarked |].
  intros Hin. pose proof (gate_marked ops Hin) as Hf.
  split; [exact Hf |].
  pose proof (gate_reachable ops) as H. cbn zeta in H. by rewrite Hf in H.
Qed.

(** X13. The first [markSessionReady] releases exactly the continuations
    that awaited [sessionReady] before it, in the order in which they
    arrived, and leaves nobody parked. *)
Theorem markSessionReady_releases_in_order (ops : list (GateOp K)) :
  sessionReady (gate_run new_gate ops) = Pending ->
  markSessionReady (gate_run new_gate ops) =
    {| sessionReady := Fulfilled; reactions := []; jobs := awaiters ops |}.
Proof.
  intros Hp. pose proof (gate_reachable ops) as H. cbn zeta in H.
  rewrite Hp in H. destruct H as [Hj Hr].
  unfold markSessionReady, _resolve. by rewrite Hp, Hj, Hr.
Qed.
End GateInvariants.

(** ** The start-up sequence of the service worker *)

Set Implicit Arguments.

Section ServiceWorker.
Context {W : Type} (h : forall X, HostEv X -> W -> X * W).

Lemma host_exec_eta {R} (c : Host R) w :
  host_exec h c w = (host_result h c w, snd (fst (host_exec h c w)), host_trace h c w).
Proof. unfold host_result, host_trace. by destruct (host_exec h c w) as [[? ?] ?]. Qed.

Lemma host_exec_bind {A B} (c : Host A) (f : A -> Host B) w :
  host_exec h (host_bind c f) w =
    let '(a, w1, t1) := host_exec h c w in
    let '(b, w2, t2) := host_exec h (f a) w1 in
    (b, w2, t1 ++ t2).
Proof.
  revert w. induction c as [a | X e k IH]; intros w; simpl.
  - by destruct (host_exec h (f a) w) as [[? ?] ?].
  - destruct (h e w) as [x w1]. rewrite IH.
    destruct (host_exec h (k x) w1) as [[a w2] t1].
    by destruct (host_exec h (f a) w2) as [[? ?] ?].
Qed.

Lemma host_exec_hbind {A B} (c : Host (Outcome A)) (f : A -> Host (Outcome B)) w :
  host_exec h (hbind c f) w =
    let '(o, w1, t1) := host_exec h c w in
    match o with
    | Returned a =>
      let '(b, w2, t2) := host_exec h (f a) w1 in (b, w2, t1 ++ t2)
    | Threw err => (Threw err, w1, t1)
    end.
Proof.
  unfold hbind. rewrite host_exec_bind.
  destruct (host_exec h c w) as [[[a|err] w1] t1]; [done |].
  simpl. by rewrite app_nil_r.
Qed.

(** A function of the token manager runs in the service worker as it runs
    on its own. *)
Lemma host_exec_embed {R} (c : Prog R) w :
  host_exec h (embed c) w =
    let '(r, w1, t) := exec (token_manager_world h) c w in
    (r, w1, map lift_call t).
Proof.
  revert w. induction c as [r | X e k IH]; intros w; simpl; [done |].
  unfold token_manager_world at 1.
  destruct (h (TokenManager e) w) as [x w1]. rewrite IH.
  by destruct (exec (token_manager_world h) (k x) w1) as [[? ?] ?].
Qed.

Lemma hcount_app f (t1 t2 : list HostCall) :
  hcount f (t1 ++ t2) = (hcount f t1 + hcount f t2)%nat.
Proof. unfold hcount. by rewrite filter_app, length_app. Qed.

Lemma hcount_lift_call f (t : list Call) :
  (forall c, f (lift_call c) = false) -> hcount f (map lift_call t) = 0%nat.
Proof.
  intros Hf. unfold hcount. induction t as [| c t IH]; [done |].
  simpl. rewrite filter_cons. rewrite Hf.
  destruct (decide (false = true)); [done | apply IH].
Qed.

Lemma updateCachedAuthState_exec {V} (g : forall X, Ev X -> V -> X * V) v :
  exists b, exec g updateCachedAuthState v =
              (Returned (Some b), snd (g _ GetSession v), [call GetSession]).
Proof.
  unfold updateCachedAuthState, try_catch, bind; simpl.
  destruct (g _ GetSession v) as [[r|err] v1]; simpl; by eexists.
Qed.

(** The calls of the start-up sequence, once [setAccessLevel] has
    succeeded and left world [w1]. *)
Lemma startup_exec w u w1 :
  h (SetAccessLevel "TRUSTED_AND_UNTRUSTED_CONTEXTS") w = (Returned u, w1) ->
  exists authenticated tail,
    host_trace h startup w =
      [hcall (SetAccessLevel "TRUSTED_AND_UNTRUSTED_CONTEXTS");
       hcall (TokenManager GetSession)]
      ++ map lift_call (log_calls (fst (h (TokenManager GetSession) w1)))
      ++ [hcall (TokenManager GetSession);
          hcall (AssignCachedAuthState (Some authenticated));
          hcall CallMarkSessionReady]
      ++ map lift_call
           (trace (token_manager_world h) getAuthToken (world_at_gate h w))
      ++ tail
    /\ sync_calls
         (result (token_manager_world h) getAuthToken (world_at_gate h w))
         tail.
Proof.
  intros Hset.
  pose proof (eq_refl (world_at_gate h w)) as Hwg.
  unfold world_at_gate at 2, final in Hwg. rewrite Hset in Hwg.
  cbn [fst snd] in Hwg.
  unfold host_trace, startup.
  rewrite host_exec_hbind. simpl host_exec at 1. rewrite Hset.
  rewrite host_exec_hbind, host_exec_embed.
  pose proof (restoreSupabaseSession_exec (token_manager_world h) w1) as Eb.
  rewrite Eb in Hwg |- *. cbn [fst snd] in Hwg.
  change (token_manager_world h GetSession w1)
    with (h (TokenManager GetSession) w1) in *.
  set (o := fst (h (TokenManager GetSession) w1)) in *.
  set (w2 := world_after_log (token_manager_world h) o
               (snd (h (TokenManager GetSession) w1))) in *.
  rewrite host_exec_hbind, host_exec_embed.
  destruct (updateCachedAuthState_exec (token_manager_world h) w2) as [a Ea].
  rewrite Ea in Hwg |- *.
  set (w3 := snd (token_manager_world h GetSession w2)) in *.
  rewrite host_exec_hbind. simpl host_exec at 1.
  destruct (h (AssignCachedAuthState (Some a)) w3) as [[] w4].
  cbn [fst snd] in Hwg.
  rewrite host_exec_hbind. simpl host_exec at 1.
  destruct (h CallMarkSessionReady w4) as [[] w5]. cbn [fst snd] in Hwg.
  rewrite Hwg. clear Hwg.
  rewrite host_exec_hbind, host_exec_embed.
  unfold trace, result.
  destruct (exec (token_manager_world h) getAuthToken w5) as [[[token|err] w6] tg];
    cbn [fst snd sync_calls].
  - destruct (truthy token) eqn:Htok.
    + rewrite host_exec_hbind. simpl host_exec at 1.
      destruct (h StartAutoSync w6) as [[[]|err] w7]; cbn [fst snd].
      * simpl host_exec.
        destruct (h (ScheduleSyncFromCloud 2000) w7) as [[] w8]. cbn [fst snd].
        exists a, [hcall StartAutoSync; hcall (ScheduleSyncFromCloud 2000)].
        split; [| by left]. simpl. by rewrite ?app_nil_r.
      * exists a, [hcall StartAutoSync].
        split; [| by right]. simpl. by rewrite ?app_nil_r.
    + simpl host_exec. cbn [fst snd]. exists a, [].
      split; [| done]. simpl. by rewrite ?app_nil_r.
  - exists a, []. split; [| done]. simpl. by rewrite ?app_nil_r.
Qed.

Lemma hcount_log_calls f o :
  (forall c, f (lift_call c) = false) ->
  hcount f (map lift_call (log_calls o)) = 0%nat.
Proof. intros Hf. by apply hcount_lift_call. Qed.

(** X14. The start-up sequence opens the gate exactly when
    [setAccessLevel] succeeds.  If that first call rejects, nothing else
    runs: the session is not restored and [markSessionReady] is never
    called.  If it succeeds, the gate is opened exactly once, whatever
    the identity client answered or threw.  What comes before the
    opening is: the read of the session by [restoreSupabaseSession] and
    the read of the clock for its log, if it makes one ([log_calls]), the
    read of the session by [updateCachedAuthState], and the assignment of
    a boolean to [_cachedAuthState]; so nothing is refreshed and no sync
    is started before the gate is open. *)
Theorem startup_opens_gate (w : W) :
  match h (SetAccessLevel "TRUSTED_AND_UNTRUSTED_CONTEXTS") w with
  | (Threw err, w1) =>
    host_exec h startup w =
      (Threw err, w1, [hcall (SetAccessLevel "TRUSTED_AND_UNTRUSTED_CONTEXTS")])
  | (Returned _, w1) =>
    let restored := fst (h (TokenManager GetSession) w1) in
    exists authenticated rest,
      host_trace h startup w =
        [hcall (SetAccessLevel "TRUSTED_AND_UNTRUSTED_CONTEXTS");
         hcall (TokenManager GetSession)]
        ++ map lift_call (log_calls restored)
        ++ [hcall (TokenManager GetSession);
            hcall (AssignCachedAuthState (Some authenticated));
            hcall CallMarkSessionReady]
        ++ rest
      /\ (log_calls restored = [] \/ log_calls restored = [call DateNow])
      /\ hcount is_mark rest = 0%nat
      /\ hcount is_mark (host_trace h startup w) = 1%nat
  end.
Proof.
  destruct (h (SetAccessLevel "TRUSTED_AND_UNTRUSTED_CONTEXTS") w)
    as [[u|err] w1] eqn:Hset.
  - intros restored.
    destruct (startup_exec Hset) as (a & tail & Ht & Hs). fold restored in Ht.
    assert (Hrest : hcount is_mark
              (map lift_call
                 (trace (token_manager_world h) getAuthToken (world_at_gate h w))
               ++ tail) = 0%nat).
    { rewrite hcount_app, hcount_lift_call by done.
      destruct (result _ getAuthToken _) as [token|e]; simpl in Hs.
      - destruct (truthy token); [destruct Hs as [-> | ->] | subst tail]; done.
      - by subst tail. }
    exists a. eexists. split; [exact Ht |].
    split; [unfold log_calls; destruct (logs_ttl restored); [by right | by left] |].
    split; [exact Hrest |].
    rewrite Ht. do 3 rewrite hcount_app.
    rewrite Hrest, hcount_log_calls by done. done.
  - unfold startup. rewrite host_exec_hbind. simpl host_exec at 1.
    by rewrite Hset.
Qed.

End ServiceWorker.

(** ** The theorems at work on the mock world *)

(** Scenario B with the TTL check bypassed: the refresh yields the new
    token and the call ends there. *)
Lemma forceRefreshToken_refreshed_witness :
  exec mock_world (forceRefreshToken true) scenario_B =
    (Returned (Some "new-fresh-token"),
     final mock_world (refreshAuthToken None)
       (final mock_world (ttl_check true) scenario_B),
     trace mock_world (ttl_check true) scenario_B
       ++ trace mock_world (refreshAuthToken None)
            (final mock_world (ttl_check true) scenario_B)).
Proof.
  apply (@forceRefreshToken_refreshed Mock mock_world true scenario_B
           (Some "new-fresh-token")).
  - reflexivity.
  - vm_compute. reflexivity.
  - reflexivity.
Defined.

(** The second caller of [two_callers] has observed a token. *)
Lemma refreshAuthToken_never_rejects_witness :
  run init two_callers = Some after_two_callers
  /\ null_or_token (Returned (Some "new-fresh-token")).
Proof.
  split; [reflexivity |].
  destruct (refreshAuthToken_never_rejects two_callers after_two_callers eq_refl)
    as [_ H].
  apply (H 1%nat). reflexivity.
Defined.

(** A second call arriving after the settlement joins it. *)
Lemma late_caller_gets_settled_outcome_witness :
  exists m1 m2,
    step after_settlement (CallRefreshAuthToken (Some "stale-refresh-token"))
      = Some m1
    /\ step m1 (Resume 1%nat) = Some m2
    /\ executions m2 = executions after_settlement
    /\ observed m2 1%nat = Some (Returned (Some "new-fresh-token")).
Proof.
  exact (late_caller_gets_settled_outcome
           [CallRefreshAuthToken None; Settle 0%nat (mock_reply scenario_B)]
           after_settlement 0%nat (Returned (Some "new-fresh-token"))
           (Some "stale-refresh-token") eq_refl eq_refl eq_refl).
Defined.

(** Once the first call has resumed, the next one starts execution 1. *)
Lemma refresh_restarts_after_settlement_witness :
  exists i m1 m2,
    callers after_settlement !! i = Some (leader 0%nat)
    /\ step after_settlement (Resume i) = Some m1
    /\ in_flight m1 = []
    /\ step m1 (CallRefreshAuthToken None) = Some m2
    /\ length (executions m2) = 2%nat
    /\ _refreshPromise m2 = Some 1%nat
    /\ (forall q, q ∈ in_flight m2 <-> q = 1%nat).
Proof.
  exact (refresh_restarts_after_settlement
           [CallRefreshAuthToken None; Settle 0%nat (mock_reply scenario_B)]
           after_settlement 0%nat (Returned (Some "new-fresh-token"))
           None eq_refl eq_refl eq_refl).
Defined.

(** Two handlers await, then the gate is opened. *)
Lemma markSessionReady_releases_in_order_witness :
  markSessionReady
    (gate_run new_gate [AwaitSessionReady 1%nat; AwaitSessionReady 2%nat]) =
    {| sessionReady := Fulfilled; reactions := []; jobs := [1%nat; 2%nat] |}.
Proof.
  exact (@markSessionReady_releases_in_order nat
           [AwaitSessionReady 1%nat; AwaitSessionReady 2%nat] eq_refl).
Defined.


(** Two handlers await and the job queue is polled, the gate is not
    opened: both stay parked. *)
Lemma gate_holds_until_ready_witness :
  gate_run new_gate
    [AwaitSessionReady 1%nat; RunJob; AwaitSessionReady 2%nat] =
    {| sessionReady := Pending; reactions := [1%nat; 2%nat]; jobs := [] |}.
Proof.
  apply (proj1 (@gate_holds_until_ready nat
                  [AwaitSessionReady 1%nat; RunJob; AwaitSessionReady 2%nat])).
  simpl. intros [H | [H | [H | []]]]; discriminate H.
Defined.
